(** * Single-player Tic Tac Toe (script.js): game state machine and heuristic AI

    A shallow embedding of the game logic of [script.js]: the board, the
    winning combinations, [checkWinner], [handlePlayerMove], [aiMove] with its
    local helper [findWinningMove], [finishGame], [highlightWinningCells] and
    [resetGame].  The DOM is represented by the list of effects a call
    performs on it ([Event]); the three mutable globals [boardState],
    [gameActive] and [isProcessing] form the record [State]. *)

From stdpp Require Import base decidable option list sorting strings.
From Stdlib Require Import ZArith Lia.

Open Scope nat_scope.

(** ** Data model *)

(** The content of a cell: the strings [''], ['X'] and ['O']. *)
Inductive Mark : Set := Empty | X | O.

#[global] Instance Mark_eq_dec : EqDecision Mark.
Proof. solve_decision. Defined.

(** [const PLAYER = 'X'; const AI = 'O';] *)
Definition PLAYER : Mark := X.
Definition AI : Mark := O.

(** [const THINK_DELAY = 500;] *)
Definition THINK_DELAY : nat := 500.

(** A winning combination [[a,b,c]]. *)
Definition Combo : Set := (nat * nat * nat)%type.

(** [const winConditions = [[0,1,2],[3,4,5],[6,7,8],[0,3,6],[1,4,7],[2,5,8],[0,4,8],[2,4,6]];] *)
Definition winConditions : list Combo :=
  [ (0,1,2); (3,4,5); (6,7,8);
    (0,3,6); (1,4,7); (2,5,8);
    (0,4,8); (2,4,6) ].

(** [Array(9).fill('')] *)
Definition emptyBoard : list Mark := replicate 9 Empty.

(** The value returned by [checkWinner] when it is not [null]: the mark of a
    winner (['X'] or ['O']) or the string ['draw']. *)
Inductive Result : Set := Winner (m : Mark) | Draw.

#[global] Instance Result_eq_dec : EqDecision Result.
Proof. solve_decision. Defined.

(** Reading [boardState[i]] yields [Some m] inside the array and [None]
    (JavaScript's [undefined]) outside of it: this is [b !! i].

    [isBlank v] is the test [v === ''], [isMark p v] is [v === p]; both are
    false on [undefined]. *)
Definition isMark (p : Mark) (v : option Mark) : bool := bool_decide (v = Some p).
Definition isBlank (v : option Mark) : bool := isMark Empty v.

(** ** checkWinner *)

(** The [for (const combo of winConditions)] loop of [checkWinner]: the first
    combination whose first cell is truthy (neither [''] nor [undefined]) and
    strictly equal to the two others makes the function return that cell. *)
Fixpoint checkCombos (b : list Mark) (combos : list Combo) : option Mark :=
  match combos with
  | [] => None
  | (a, b', c) :: rest =>
      match b !! a with
      | Some m =>
          if bool_decide (m ≠ Empty)
             && bool_decide (b !! a = b !! b')
             && bool_decide (b !! b' = b !! c)
          then Some m
          else checkCombos b rest
      | None => checkCombos b rest
      end
  end.

(** [checkWinner()]: ['X'] or ['O'] if there is a winner, ['draw'] if
    [boardState] does not include [''], [null] otherwise. *)
Definition checkWinner (b : list Mark) : option Result :=
  match checkCombos b winConditions with
  | Some m => Some (Winner m)
  | None => if bool_decide (Empty ∈ b) then None else Some Draw
  end.

(** ** findWinningMove (local helper of aiMove) *)

(** [line.map(i => boardState[i])] *)
Definition marksOf (b : list Mark) (l : Combo) : list (option Mark) :=
  let '(a, b', c) := l in [b !! a; b !! b'; b !! c].

Definition lineOf (l : Combo) : list nat :=
  let '(a, b', c) := l in [a; b'; c].

(** [line.find(i => boardState[i] === '')].  [None] stands for the
    [undefined] that [find] returns without a match; [findWinningMove] calls
    it only on a combination with an empty cell
    (lemma [findWinningMoveIn_cons_test]). *)
Definition findBlank (b : list Mark) (l : Combo) : option nat :=
  head (filter (fun i => b !! i = Some Empty) (lineOf l)).

(** The loop of [findWinningMove(player)], over the combinations in order. *)
Fixpoint findWinningMoveIn (b : list Mark) (player : Mark) (combos : list Combo)
  : option nat :=
  match combos with
  | [] => None
  | l :: rest =>
      let marks := marksOf b l in
      let countPlayer := length (filter (fun v => v = Some player) marks) in
      let countEmpty := length (filter (fun v => v = Some Empty) marks) in
      if bool_decide (countPlayer = 2) && bool_decide (countEmpty = 1)
      then findBlank b l
      else findWinningMoveIn b player rest
  end.

Definition findWinningMove (b : list Mark) (player : Mark) : option nat :=
  findWinningMoveIn b player winConditions.

(** ** Game state and effects on the page *)

(** The mutable globals of the script. *)
Record State : Set := mkState {
  boardState : list Mark;
  gameActive : bool;      (* false when game ended *)
  isProcessing : bool     (* true while AI is thinking to prevent double moves *)
}.

(** The texts written to [statusEl.textContent]. *)
Inductive StatusText : Set := YourTurn | AIsTurn | YouWin | YouLose | ItsADraw.

(** What a call does to the page and to the timer queue, in program order. *)
Inductive Event : Set :=
  | RenderMark (index : nat) (player : Mark)   (* renderMark(index, player) *)
  | ShowStatus (t : StatusText)                (* statusEl.textContent = ... *)
  | HighlightWin (combo : Combo)               (* the three cells get class 'win' *)
  | SetTimeout (delay : nat)                   (* setTimeout(() => { aiMove(); isProcessing = false; }, delay) *)
  | ClearBoardVisuals.                         (* clearBoardVisuals() *)

(** The initial values of the globals. *)
Definition initialState : State :=
  {| boardState := emptyBoard; gameActive := true; isProcessing := false |}.

(** [highlightWinningCells(player)]: the first combination whose three cells
    are all [player] is highlighted, then the loop breaks. *)
Fixpoint highlightWinningCellsIn (b : list Mark) (player : Mark) (combos : list Combo)
  : list Event :=
  match combos with
  | [] => []
  | (a, b', c) :: rest =>
      if isMark player (b !! a) && isMark player (b !! b') && isMark player (b !! c)
      then [HighlightWin (a, b', c)]
      else highlightWinningCellsIn b player rest
  end.

Definition highlightWinningCells (b : list Mark) (player : Mark) : list Event :=
  highlightWinningCellsIn b player winConditions.

(** [finishGame(result)] *)
Definition finishGame (result : Result) (s : State) : State * list Event :=
  let s' := {| boardState := boardState s; gameActive := false; isProcessing := false |} in
  if bool_decide (result = Winner PLAYER) then
    (s', ShowStatus YouWin :: highlightWinningCells (boardState s) PLAYER)
  else if bool_decide (result = Winner AI) then
    (s', ShowStatus YouLose :: highlightWinningCells (boardState s) AI)
  else
    (s', [ShowStatus ItsADraw]).

(** [resetGame()] *)
Definition resetGame (s : State) : State * list Event :=
  ({| boardState := emptyBoard; gameActive := true; isProcessing := false |},
   [ClearBoardVisuals; ShowStatus YourTurn]).

(** Sequencing of a call after the effects already performed. *)
Definition andThen (ev : list Event) (r : State * list Event) : State * list Event :=
  (r.1, ev ++ r.2).

(** [boardState[index]] for the number [index] handed over by the click and
    keyboard handlers.  The handlers pass [Number(cell.getAttribute('data-index'))];
    integers are modelled, and an index that is negative or not below the
    length reads [undefined]. *)
Definition cellAt (b : list Mark) (index : Z) : option Mark :=
  if decide (0 ≤ index)%Z then b !! Z.to_nat index else None.

(** [handlePlayerMove(index)] *)
Definition handlePlayerMove (index : Z) (s : State) : State * list Event :=
  if negb (gameActive s) || isProcessing s then (s, [])
  else if negb (isBlank (cellAt (boardState s) index)) then (s, []) (* already occupied *)
  else
    (* Player marks immediately *)
    let i := Z.to_nat index in
    let s1 := {| boardState := <[i := PLAYER]> (boardState s);
                 gameActive := gameActive s; isProcessing := isProcessing s |} in
    (* Check outcome *)
    let result := checkWinner (boardState s1) in
    if bool_decide (result = Some (Winner PLAYER)) then
      andThen [RenderMark i PLAYER] (finishGame (Winner PLAYER) s1)
    else if bool_decide (result = Some Draw) then
      andThen [RenderMark i PLAYER] (finishGame Draw s1)
    else
      (* Otherwise, AI's turn *)
      ({| boardState := boardState s1; gameActive := gameActive s1; isProcessing := true |},
       [RenderMark i PLAYER; ShowStatus AIsTurn; SetTimeout THINK_DELAY]).

(** ** The AI move *)

(** A value of [Math.random()], a number in the interval from 0 (inclusive)
    to 1 (exclusive), as a fraction [rnum / rden].  The floating-point
    number is abstracted to an exact fraction: all that the game uses of it
    is the integer [Math.floor(Math.random() * n)] for a length [n] of at
    most 9, which ranges over 0 .. n-1 in both readings. *)
Record Random : Set := mkRandom {
  rnum : nat;
  rden : nat;
  rlt : rnum < rden
}.

(** [Math.floor(Math.random() * n)] *)
Definition randomIndex (r : Random) (n : nat) : nat := (rnum r * n) / rden r.

(** [boardState.map((v,i) => v === '' ? i : null).filter(i => i !== null)] *)
Definition emptyIndices (b : list Mark) : list nat :=
  omap (fun x => x) (imap (fun i v => if bool_decide (v = Empty) then Some i else None) b).

(** The selection part of [aiMove], steps 1 to 4: the value of [chosen] when
    the random fallback is reached ([None] is [null]).  The random index is
    below the length of [corners] (lemma [randomIndex_lt]), so that the
    lookup in step 4 always finds a corner. *)
Definition chooseUpToCorner (r : Random) (b : list Mark) : option nat :=
  (* 1. Win if possible *)
  let chosen := findWinningMove b AI in
  (* 2. Block player *)
  let chosen := if bool_decide (chosen = None) then findWinningMove b PLAYER else chosen in
  (* 3. Take center *)
  let chosen := if bool_decide (chosen = None) && isBlank (b !! 4) then Some 4 else chosen in
  (* 4. Take a corner if available *)
  let corners := filter (fun i => b !! i = Some Empty) [0; 2; 6; 8] in
  if bool_decide (chosen = None) && bool_decide (length corners ≠ 0)
  then corners !! randomIndex r (length corners)
  else chosen.

(** The tail of [aiMove] once a cell is chosen: apply the move and check the
    result. *)
Definition applyAiMove (chosen : nat) (s : State) : State * list Event :=
  let s1 := {| boardState := <[chosen := AI]> (boardState s);
               gameActive := gameActive s; isProcessing := isProcessing s |} in
  let result := checkWinner (boardState s1) in
  if bool_decide (result = Some (Winner AI)) then
    andThen [RenderMark chosen AI] (finishGame (Winner AI) s1)
  else if bool_decide (result = Some Draw) then
    andThen [RenderMark chosen AI] (finishGame Draw s1)
  else
    (* Continue play *)
    (s1, [RenderMark chosen AI; ShowStatus YourTurn]).

(** [aiMove()], with the value [r] that [Math.random()] returns if it is
    called (it is called at most once per move). *)
Definition aiMove (r : Random) (s : State) : State * list Event :=
  if negb (gameActive s) then (s, [])
  else
    let b := boardState s in
    match chooseUpToCorner r b with
    | Some chosen => applyAiMove chosen s
    | None =>
        (* 5. Random fallback *)
        let avail := emptyIndices b in
        if bool_decide (length avail = 0) then
          (* Shouldn't happen because we check draw earlier *)
          let res := checkWinner b in
          if bool_decide (res = Some Draw) then finishGame Draw s else (s, [])
        else
          match avail !! randomIndex r (length avail) with
          | Some chosen => applyAiMove chosen s
          | None => (s, [])
          end
    end.

(** The callback given to [setTimeout] by [handlePlayerMove]:
    [() => { aiMove(); isProcessing = false; }] *)
Definition timerCallback (r : Random) (s : State) : State * list Event :=
  let '(s', ev) := aiMove r s in
  ({| boardState := boardState s'; gameActive := gameActive s'; isProcessing := false |}, ev).

(** ** Specification vocabulary *)

(** [x] is the first element of [xs], in order, that satisfies [P]. *)
Definition firstWith {A : Type} (P : A → Prop) (xs : list A) (x : A) : Prop :=
  ∃ pre post, xs = pre ++ x :: post ∧ P x ∧ ∀ y, y ∈ pre → ¬ P y.

(** The three cells of the combination hold the same mark [m], and [m] is
    not [Empty]. *)
Definition completeLine (b : list Mark) (m : Mark) (l : Combo) : Prop :=
  let '(a, b', c) := l in
  m ≠ Empty ∧ b !! a = Some m ∧ b !! b' = Some m ∧ b !! c = Some m.

Definition someComplete (b : list Mark) (l : Combo) : Prop :=
  ∃ m, completeLine b m l.

(** The combination holds exactly two cells equal to the mark [m] and one
    [Empty] cell, which is the cell [e]. *)
Definition completes (b : list Mark) (m : Mark) (l : Combo) (e : nat) : Prop :=
  let '(a, b', c) := l in
  m ≠ Empty ∧ b !! e = Some Empty ∧
  ((e = a ∧ b !! b' = Some m ∧ b !! c = Some m) ∨
   (e = b' ∧ b !! a = Some m ∧ b !! c = Some m) ∨
   (e = c ∧ b !! a = Some m ∧ b !! b' = Some m)).

Definition completable (b : list Mark) (m : Mark) (l : Combo) : Prop :=
  ∃ e, completes b m l e.

(** The test made by [checkWinner] on one combination. *)
Definition comboWinner (b : list Mark) (l : Combo) : option Mark :=
  let '(a, b', c) := l in
  match b !! a with
  | Some m =>
      if bool_decide (m ≠ Empty)
         && bool_decide (b !! a = b !! b')
         && bool_decide (b !! b' = b !! c)
      then Some m else None
  | None => None
  end.

(** The test made by [findWinningMove] on one combination, and its result. *)
Definition comboMove (b : list Mark) (player : Mark) (l : Combo) : option nat :=
  let marks := marksOf b l in
  let countPlayer := length (filter (fun v => v = Some player) marks) in
  let countEmpty := length (filter (fun v => v = Some Empty) marks) in
  if bool_decide (countPlayer = 2) && bool_decide (countEmpty = 1)
  then findBlank b l else None.

(** Some combination can be completed by [m] in one move. *)
Definition winnable (b : list Mark) (m : Mark) : Prop :=
  ∃ l, l ∈ winConditions ∧ completable b m l.

(** The corner cells, as listed in step 4 of [aiMove]. *)
Definition cornerCells : list nat := [0; 2; 6; 8].

(** The cascade of the AI as a decision list over the cell [c] it plays:
    each rule applies only when all the rules before it do not. *)
Definition cascade (b : list Mark) (c : nat) : Prop :=
  (winnable b AI → ∃ l, l ∈ winConditions ∧ completes b AI l c)
  ∧ (¬ winnable b AI → winnable b PLAYER →
       ∃ l, l ∈ winConditions ∧ completes b PLAYER l c)
  ∧ (¬ winnable b AI → ¬ winnable b PLAYER → b !! 4 = Some Empty → c = 4)
  ∧ (¬ winnable b AI → ¬ winnable b PLAYER → b !! 4 ≠ Some Empty →
       (∃ k, k ∈ cornerCells ∧ b !! k = Some Empty) →
       c ∈ cornerCells ∧ b !! c = Some Empty)
  ∧ b !! c = Some Empty.

(** The game has ended: the flag [gameActive] is false. *)
Definition Terminal (s : State) : Prop := gameActive s = false.

(** Both marks have a complete combination on the board. *)
Definition bothComplete (b : list Mark) : Prop :=
  (∃ l, l ∈ winConditions ∧ completeLine b PLAYER l)
  ∧ (∃ l, l ∈ winConditions ∧ completeLine b AI l).

(** ** Runs of the game *)

(** The calls that the page makes into the game logic: a click or key press
    on a cell, the expiry of the timer set by [handlePlayerMove], and the
    restart button. *)
Inductive Call : Set :=
  | PlayerMove (index : Z)
  | AgentMove (r : Random)
  | Reset.

Definition run (c : Call) (s : State) : State * list Event :=
  match c with
  | PlayerMove index => handlePlayerMove index s
  | AgentMove r => timerCallback r s
  | Reset => resetGame s
  end.

(** The states that any sequence of calls can produce from the initial one. *)
Inductive reachable : State → Prop :=
  | reachable_init : reachable initialState
  | reachable_run c s : reachable s → reachable (run c s).1.

(** The states of a game played in turns from the empty board: the player
    moves while the AI is not pending, and the AI moves exactly when
    [handlePlayerMove] has set [isProcessing] and scheduled it. *)
Inductive played : State → Prop :=
  | played_init : played initialState
  | played_player index s :
      played s → isProcessing s = false → played (handlePlayerMove index s).1
  | played_agent r s :
      played s → isProcessing s = true → played (timerCallback r s).1.

(** The invariant of the game state. *)
Definition invariant (s : State) : Prop :=
  length (boardState s) = 9
  ∧ (gameActive s = true → checkWinner (boardState s) = None)
  ∧ (gameActive s = false →
       isProcessing s = false ∧ checkWinner (boardState s) ≠ None)
  ∧ ¬ bothComplete (boardState s).

(** Sample values used in the examples. *)
Definition randomZero : Random := {| rnum := 0; rden := 1; rlt := le_n 1 |}.
Definition randomTwoThirds : Random := {| rnum := 2; rden := 3; rlt := le_n 3 |}.

(** A full board without a complete combination, the game still marked
    active. *)
Definition fullBoardState : State :=
  {| boardState := [X; O; X; X; O; O; O; X; X]; gameActive := true; isProcessing := true |}.

(** The state after the player has taken the centre of the empty board. *)
Definition centreTakenState : State := (handlePlayerMove 4 initialState).1.

(** A game played in turns until the AI wins: the player takes cells 0, 1
    and 3, and the AI answers with the centre, the block on 2 and the win
    on 6. *)
Definition lostGameState : State :=
  let s1 := (handlePlayerMove 0 initialState).1 in
  let s2 := (timerCallback randomZero s1).1 in
  let s3 := (handlePlayerMove 1 s2).1 in
  let s4 := (timerCallback randomZero s3).1 in
  let s5 := (handlePlayerMove 3 s4).1 in
  (timerCallback randomZero s5).1.

(** ** Vocabulary for further properties *)

(** The number of cells of the board that hold [m]. *)
Definition countMark (m : Mark) (b : list Mark) : nat :=
  length (filter (fun v => v = m) b).

(** One round of turn-by-turn play: a click, and the timer callback when the
    click has left the AI pending. *)
Definition playRound (index : Z) (r : Random) (s : State) : State :=
  let s1 := (handlePlayerMove index s).1 in
  if isProcessing s1 then (timerCallback r s1).1 else s1.

(** The value [k / n] of [Math.random()], for [k < n]. *)
Definition randomFraction (k n : nat) (H : k < n) : Random :=
  {| rnum := k; rden := n; rlt := H |}.

(** The test that ends the game after [mover] has marked a cell: the result
    of [checkWinner] is [mover] or the draw. *)
Definition endsGame (mover : Mark) (b : list Mark) : bool :=
  bool_decide (checkWinner b = Some (Winner mover))
  || bool_decide (checkWinner b = Some Draw).

(** The game of [lostGameState] before the last move of the AI: the player
    holds cells 0, 1 and 3, the AI holds 4 and 2 and is pending. *)
Definition threatenedState : State :=
  let s1 := (handlePlayerMove 0 initialState).1 in
  let s2 := (timerCallback randomZero s1).1 in
  let s3 := (handlePlayerMove 1 s2).1 in
  let s4 := (timerCallback randomZero s3).1 in
  (handlePlayerMove 3 s4).1.

(** ** The cells of the page *)

(** [const IMG_X = ...; const IMG_O = ...;] *)
Definition IMG_X : string := "https://i.ibb.co/Kjj1tz2f/Baby-Moose.png".
Definition IMG_O : string := "https://i.ibb.co/d09pFB9N/acorn.png".

(** An [img] element as [renderMark] builds it. *)
Record Image : Set := mkImage {
  className : string;
  alt : string;
  src : string
}.

(** What the script reads and writes of a cell element: its list of
    classes, its attribute [data-mark] ([None] when the attribute is absent)
    and its content. *)
Record CellView : Set := mkCellView {
  classList : list string;
  dataMark : option Mark;
  innerHTML : list Image
}.

(** [classList.add(t)]: the token is appended unless it is present. *)
Definition classListAdd (t : string) (cl : list string) : list string :=
  if decide (t ∈ cl) then cl else cl ++ [t].

(** [classList.remove(t1, t2, ...)] *)
Definition classListRemove (ts : list string) (cl : list string) : list string :=
  filter (fun t => t ∉ ts) cl.

(** A timer set by [renderMark]: [setTimeout(() => cell.classList.add('marked-animated'), delay)]
    for the cell at [index]. *)
Inductive PageTimer : Set := AnimateCell (index : nat) (delay : nat).

(** [renderMark(index, player)] on the array [cells]: the new cells and the
    timer it sets.  Without a cell at [index] the function returns at once. *)
Definition renderMark (index : nat) (player : Mark) (cells : list CellView)
  : list CellView * list PageTimer :=
  match cells !! index with
  | None => (cells, [])
  | Some cell =>
      let img := {| className := "mark-image";
                    alt := if bool_decide (player = PLAYER) then "X mark" else "O mark";
                    src := if bool_decide (player = PLAYER) then IMG_X else IMG_O |} in
      (<[index := {| classList := classListAdd "has-mark" (classList cell);
                     dataMark := Some player;
                     innerHTML := [img] |}]> cells,
       [AnimateCell index 10])
  end.

(** The callback of the timer of [renderMark], for the cell at [index]. *)
Definition animateCallback (index : nat) (cells : list CellView) : list CellView :=
  match cells !! index with
  | None => cells
  | Some cell =>
      <[index := {| classList := classListAdd "marked-animated" (classList cell);
                    dataMark := dataMark cell;
                    innerHTML := innerHTML cell |}]> cells
  end.

(** [clearBoardVisuals()] *)
Definition clearBoardVisuals (cells : list CellView) : list CellView :=
  (fun c => {| classList := classListRemove ["has-mark"; "win"; "marked-animated"] (classList c);
               dataMark := None;
               innerHTML := [] |}) <$> cells.

(** [cells[i].classList.add('win')]; [None] is the [TypeError] raised when
    there is no cell at [i]. *)
Definition addWinClass (i : nat) (cells : list CellView) : option (list CellView) :=
  match cells !! i with
  | None => None
  | Some cell =>
      Some (<[i := {| classList := classListAdd "win" (classList cell);
                      dataMark := dataMark cell;
                      innerHTML := innerHTML cell |}]> cells)
  end.

(** The three [classList.add('win')] of [highlightWinningCells] for the
    combination it has found. *)
Definition highlightCells (combo : Combo) (cells : list CellView)
  : option (list CellView) :=
  let '(a, b', c) := combo in
  match addWinClass a cells with
  | None => None
  | Some cells1 =>
      match addWinClass b' cells1 with
      | None => None
      | Some cells2 => addWinClass c cells2
      end
  end.

(** The effect of an [Event] on the cells; the status line and the timer of
    the AI do not touch them. *)
Definition applyEvent (ev : Event) (cells : list CellView) : option (list CellView) :=
  match ev with
  | RenderMark index player => Some (renderMark index player cells).1
  | HighlightWin combo => highlightCells combo cells
  | ClearBoardVisuals => Some (clearBoardVisuals cells)
  | ShowStatus _ | SetTimeout _ => Some cells
  end.

Fixpoint applyEvents (evs : list Event) (cells : list CellView) : option (list CellView) :=
  match evs with
  | [] => Some cells
  | ev :: rest =>
      match applyEvent ev cells with
      | None => None
      | Some cells' => applyEvents rest cells'
      end
  end.

(** The game state together with the cells of the page, from the load of the
    script, which ends with a call of [resetGame], through any sequence of
    calls and of expiries of the timers of [renderMark].  [cells0] are the
    cells as the page declares them. *)
Inductive displayed (cells0 : list CellView) : State → list CellView → Prop :=
  | displayed_load :
      displayed cells0 initialState (clearBoardVisuals cells0)
  | displayed_call c s cells cells' :
      displayed cells0 s cells →
      applyEvents (run c s).2 cells = Some cells' →
      displayed cells0 (run c s).1 cells'
  | displayed_animate index s cells :
      displayed cells0 s cells →
      displayed cells0 s (animateCallback index cells).

(** The cell shows the mark [m]: an empty cell has no content and no
    attribute [data-mark]; a marked cell carries the class [has-mark], the
    attribute and the one image of the mark. *)
Definition showsMark (m : Mark) (cell : CellView) : Prop :=
  match m with
  | Empty => dataMark cell = None ∧ innerHTML cell = [] ∧ "has-mark" ∉ classList cell
  | _ =>
      dataMark cell = Some m
      ∧ innerHTML cell =
          [ {| className := "mark-image";
               alt := if bool_decide (m = PLAYER) then "X mark" else "O mark";
               src := if bool_decide (m = PLAYER) then IMG_X else IMG_O |} ]
      ∧ "has-mark" ∈ classList cell
  end.

(** The cell at [i] belongs to the combination that won the game. *)
Definition winningCell (s : State) (i : nat) : Prop :=
  gameActive s = false
  ∧ ∃ m l, checkWinner (boardState s) = Some (Winner m)
           ∧ firstWith (someComplete (boardState s)) winConditions l
           ∧ i ∈ lineOf l.

(** A page of nine cells as a document would declare them. *)
Definition blankCells : list CellView :=
  replicate 9 {| classList := ["cell"]; dataMark := None; innerHTML := [] |}.

(** A change of a cell that keeps the attribute [data-mark], the content and
    the presence of the class [has-mark]. *)
Definition sameMark (cell cell' : CellView) : Prop :=
  dataMark cell' = dataMark cell ∧ innerHTML cell' = innerHTML cell
  ∧ ("has-mark" ∈ classList cell' ↔ "has-mark" ∈ classList cell).

(** The events that leave the marks on the page alone: status texts, the
    timer of the AI and the highlight of a winning combination. *)
Definition keepsMarks (ev : Event) : Prop :=
  match ev with
  | ShowStatus _ | SetTimeout _ => True
  | HighlightWin l => l ∈ winConditions
  | _ => False
  end.

(** The cell at [i] carries the class [win]. *)
Definition hasWin (cells : list CellView) (i : nat) : Prop :=
  ∃ cell, cells !! i = Some cell ∧ "win" ∈ classList cell.

(** The events that do not touch the cells at all. *)
Definition statusOnly (ev : Event) : Prop :=
  match ev with
  | ShowStatus _ | SetTimeout _ => True
  | _ => False
  end.

(** The cells of [blankCells] after the load of the script and a click on
    the centre. *)
Definition centreTakenCells : list CellView :=
  (renderMark 4 PLAYER (clearBoardVisuals blankCells)).1.

(** A sequence of calls on the state and the cells; [None] when an effect
    fails on the cells. *)
Fixpoint playCalls (cs : list Call) (s : State) (cells : list CellView)
  : option (State * list CellView) :=
  match cs with
  | [] => Some (s, cells)
  | c :: rest =>
      match applyEvents (run c s).2 cells with
      | None => None
      | Some cells' => playCalls rest (run c s).1 cells'
      end
  end.

(** The calls of the game of [lostGameState]. *)
Definition lostGameCalls : list Call :=
  [PlayerMove 0; AgentMove randomZero; PlayerMove 1; AgentMove randomZero;
   PlayerMove 3; AgentMove randomZero].

(** The cells of [blankCells] at the end of that game. *)
Definition lostGameCells : list CellView :=
  Eval vm_compute in
    match playCalls lostGameCalls initialState (clearBoardVisuals blankCells) with
    | Some (_, cells) => cells
    | None => []
    end.

(** ** Facts about first matches *)

Section FirstWith.
Context {A : Type} (P : A → Prop).

Lemma firstWith_here x xs : P x → firstWith P (x :: xs) x.
Proof. intros HP. exists [], xs. split_and!; [done | done |]. intros y Hy. inversion Hy. Qed.

Lemma firstWith_later x y xs : ¬ P y → firstWith P xs x → firstWith P (y :: xs) x.
Proof.
  intros Hy (pre & post & -> & HP & Hpre).
  exists (y :: pre), post. split_and!; [done | done |].
  intros z [-> | Hz]%elem_of_cons; auto.
Qed.

Lemma firstWith_cons_inv x y xs :
  firstWith P (y :: xs) x → (x = y ∧ P y) ∨ (¬ P y ∧ firstWith P xs x).
Proof.
  intros (pre & post & Heq & HP & Hpre).
  destruct pre as [| z pre]; simplify_eq/=.
  - by left.
  - right. split; [apply Hpre; left |].
    exists pre, post. split_and!; [done | done |].
    intros w Hw. apply Hpre. by right.
Qed.

Lemma firstWith_elem x xs : firstWith P xs x → x ∈ xs ∧ P x.
Proof.
  intros (pre & post & -> & HP & _). split; [| done].
  apply elem_of_app. right. left.
Qed.

Lemma firstWith_unique x y xs : firstWith P xs x → firstWith P xs y → x = y.
Proof.
  induction xs as [| z xs IH]; intros Hx Hy.
  - destruct Hx as (pre & post & Heq & _). by destruct pre.
  - apply firstWith_cons_inv in Hx as [[-> Hz] | [Hnz Hx]];
      apply firstWith_cons_inv in Hy as [[-> Hz'] | [Hnz' Hy]]; try done.
    by apply IH.
Qed.
End FirstWith.

(** ** checkWinner: one combination *)

Lemma checkCombos_cons b l rest :
  checkCombos b (l :: rest) =
  match comboWinner b l with Some m => Some m | None => checkCombos b rest end.
Proof.
  destruct l as [[a b'] c]. simpl. destruct (b !! a) as [m |]; [| done].
  by destruct (_ && _).
Qed.

Lemma comboWinner_Some b l m : comboWinner b l = Some m ↔ completeLine b m l.
Proof.
  destruct l as [[a b'] c]. unfold comboWinner, completeLine. split.
  - destruct (b !! a) as [m' |] eqn:Ha; [| done].
    destruct (_ && _) eqn:Hc; [| done]. intros [= ->].
    apply andb_true_iff in Hc as [Hc H3]. apply andb_true_iff in Hc as [H1 H2].
    apply bool_decide_eq_true in H1, H2, H3. split_and!; congruence.
  - intros (Hm & Ha & Hb & Hc). rewrite Ha, Hb, Hc.
    rewrite !bool_decide_eq_true_2; done.
Qed.

Lemma comboWinner_None b l : comboWinner b l = None ↔ ¬ someComplete b l.
Proof.
  split.
  - intros Hn [m Hm]. apply comboWinner_Some in Hm. congruence.
  - intros Hn. destruct (comboWinner b l) as [m |] eqn:E; [| done].
    destruct Hn. exists m. by apply comboWinner_Some.
Qed.

Lemma completeLine_unique b l m m' : completeLine b m l → completeLine b m' l → m = m'.
Proof. destruct l as [[a b'] c]. intros (_ & Ha & _) (_ & Ha' & _). congruence. Qed.

Lemma checkCombos_Some b combos m :
  checkCombos b combos = Some m ↔
  ∃ l, firstWith (someComplete b) combos l ∧ completeLine b m l.
Proof.
  induction combos as [| l rest IH].
  - split; [done |]. intros (l & (pre & post & Heq & _) & _). by destruct pre.
  - rewrite checkCombos_cons. destruct (comboWinner b l) as [m' |] eqn:E.
    + apply comboWinner_Some in E. split.
      * intros [= ->]. exists l. split; [| done].
        apply firstWith_here. by exists m.
      * intros (l' & [[-> _] | [Hn _]]%firstWith_cons_inv & Hm).
        -- f_equal. by eapply completeLine_unique.
        -- destruct Hn. by exists m'.
    + apply comboWinner_None in E. rewrite IH. split.
      * intros (l' & Hf & Hm). exists l'. split; [| done]. by apply firstWith_later.
      * intros (l' & [[-> Hc] | [_ Hf]]%firstWith_cons_inv & Hm); [done |].
        by exists l'.
Qed.

Lemma checkCombos_None b combos :
  checkCombos b combos = None ↔ ∀ l, l ∈ combos → ¬ someComplete b l.
Proof.
  induction combos as [| l rest IH].
  - split; [| done]. intros _ l Hl. inversion Hl.
  - rewrite checkCombos_cons. destruct (comboWinner b l) as [m' |] eqn:E.
    + split; [done |]. intros Hall. apply comboWinner_Some in E.
      destruct (Hall l); [left | by exists m'].
    + apply comboWinner_None in E. rewrite IH. split.
      * intros Hall l' [-> | Hl']%elem_of_cons; auto.
      * intros Hall l' Hl'. apply Hall. by right.
Qed.

(** ** findWinningMove: one combination *)

Lemma findWinningMoveIn_cons_test b player l rest :
  findWinningMoveIn b player (l :: rest) =
  if bool_decide (is_Some (comboMove b player l))
  then findBlank b l else findWinningMoveIn b player rest.
Proof.
  simpl. unfold comboMove.
  destruct (_ && _) eqn:Hc; [| by rewrite bool_decide_eq_false_2 by (by intros [? ?])].
  destruct (findBlank b l) as [e |] eqn:He.
  - by rewrite bool_decide_eq_true_2 by by eexists.
  - exfalso. clear rest. destruct l as [[a b'] c].
    apply andb_true_iff in Hc as [_ Hc]. apply bool_decide_eq_true in Hc.
    unfold findBlank, marksOf, lineOf in *. cbn in He, Hc.
    destruct (b !! a) as [[] |], (b !! b') as [[] |], (b !! c) as [[] |];
      vm_compute in He, Hc; congruence.
Qed.

Lemma comboMove_Some b player l e :
  comboMove b player l = Some e ↔ completes b player l e.
Proof.
  destruct l as [[a b'] c]. unfold comboMove, completes, findBlank, marksOf, lineOf.
  split.
  - destruct (b !! a) as [[] |] eqn:Ha, (b !! b') as [[] |] eqn:Hb,
      (b !! c) as [[] |] eqn:Hc, player; cbn; try done;
      rewrite ?Ha, ?Hb, ?Hc; cbn; intros [= <-]; split_and!; auto.
  - intros (Hp & He & [(-> & Hb & Hc) | [(-> & Ha & Hc) | (-> & Ha & Hb)]]);
      destruct player; try done; cbn; rewrite ?He, ?Ha, ?Hb, ?Hc; cbn;
      rewrite ?He, ?Ha, ?Hb, ?Hc; done.
Qed.

Lemma comboMove_is_Some b player l : is_Some (comboMove b player l) ↔ completable b player l.
Proof.
  split.
  - intros [e He]. exists e. by apply comboMove_Some.
  - intros [e He]. exists e. by apply comboMove_Some.
Qed.

Lemma comboMove_findBlank b player l e :
  comboMove b player l = Some e → findBlank b l = Some e.
Proof. unfold comboMove. by destruct (_ && _). Qed.

Lemma completes_unique b player l e e' :
  completes b player l e → completes b player l e' → e = e'.
Proof. intros H H'. apply comboMove_Some in H, H'. congruence. Qed.

Lemma findWinningMoveIn_cons b player l rest :
  findWinningMoveIn b player (l :: rest) =
  match comboMove b player l with
  | Some e => Some e
  | None => findWinningMoveIn b player rest
  end.
Proof.
  rewrite findWinningMoveIn_cons_test.
  destruct (comboMove b player l) as [e |] eqn:E.
  - rewrite bool_decide_eq_true_2 by by eexists. by eapply comboMove_findBlank.
  - by rewrite bool_decide_eq_false_2 by (by intros [? ?]).
Qed.

Lemma findWinningMoveIn_Some b player combos e :
  findWinningMoveIn b player combos = Some e ↔
  ∃ l, firstWith (completable b player) combos l ∧ completes b player l e.
Proof.
  induction combos as [| l rest IH].
  - split; [done |]. intros (l & (pre & post & Heq & _) & _). by destruct pre.
  - rewrite findWinningMoveIn_cons. destruct (comboMove b player l) as [e' |] eqn:E.
    + apply comboMove_Some in E. split.
      * intros [= ->]. exists l. split; [| done]. apply firstWith_here. by exists e.
      * intros (l' & [[-> _] | [Hn _]]%firstWith_cons_inv & He).
        -- f_equal. by eapply completes_unique.
        -- destruct Hn. by exists e'.
    + assert (¬ completable b player l) as Hn.
      { intros Hc%comboMove_is_Some. rewrite E in Hc. by destruct Hc. }
      rewrite IH. split.
      * intros (l' & Hf & He). exists l'. split; [| done]. by apply firstWith_later.
      * intros (l' & [[-> Hc] | [_ Hf]]%firstWith_cons_inv & He); [done |]. by exists l'.
Qed.

Lemma findWinningMoveIn_None b player combos :
  findWinningMoveIn b player combos = None ↔
  ∀ l, l ∈ combos → ¬ completable b player l.
Proof.
  induction combos as [| l rest IH].
  - split; [| done]. intros _ l Hl. inversion Hl.
  - rewrite findWinningMoveIn_cons. destruct (comboMove b player l) as [e' |] eqn:E.
    + split; [done |]. intros Hall. apply comboMove_Some in E.
      destruct (Hall l); [left | by exists e'].
    + assert (¬ completable b player l) as Hn.
      { intros Hc%comboMove_is_Some. rewrite E in Hc. by destruct Hc. }
      rewrite IH. split.
      * intros Hall l' [-> | Hl']%elem_of_cons; auto.
      * intros Hall l' Hl'. apply Hall. by right.
Qed.

(** ** The outcome of a board *)

(** C3.  For every board, [checkWinner] returns the mark that fills the first
    combination, in the order of [winConditions], whose three cells hold the
    same mark other than [Empty]; it returns the draw when no combination is
    complete and no cell is [Empty]; and it returns [null] (the game goes on)
    in the remaining case, when no combination is complete and some cell is
    [Empty].  The statement holds for boards of any length, so in particular
    for the boards of 9 marks. *)
Theorem checkWinner_outcome (b : list Mark) :
  (∀ m, checkWinner b = Some (Winner m) ↔
        ∃ l, firstWith (someComplete b) winConditions l ∧ completeLine b m l)
  ∧ (checkWinner b = Some Draw ↔
        (∀ l, l ∈ winConditions → ¬ someComplete b l) ∧ Empty ∉ b)
  ∧ (checkWinner b = None ↔
        (∀ l, l ∈ winConditions → ¬ someComplete b l) ∧ Empty ∈ b).
Proof.
  unfold checkWinner. destruct (checkCombos b winConditions) as [w |] eqn:E.
  - assert (¬ ∀ l, l ∈ winConditions → ¬ someComplete b l) as Hsome.
    { intros Hn%checkCombos_None. congruence. }
    split_and!.
    + intros m. rewrite <- checkCombos_Some, E. split; congruence.
    + split; [done | tauto].
    + split; [done | tauto].
  - pose proof E as Hnone. rewrite checkCombos_None in Hnone. split_and!.
    + intros m. rewrite <- checkCombos_Some, E. by case_bool_decide.
    + case_bool_decide; split; try done; tauto.
    + case_bool_decide; split; try done; tauto.
Qed.

(** C4.  For every board and mark [m], [findWinningMove] returns the index of
    the [Empty] cell of the first combination, in the order of
    [winConditions], that holds exactly two cells equal to [m] and one
    [Empty] cell; and it returns [null] if and only if no combination holds
    exactly two cells equal to [m] and one [Empty] cell.  (For [m = Empty]
    no combination counts two cells equal to [m] and one [Empty] cell at
    once, and the function returns [null].) *)
Theorem findWinningMove_first (b : list Mark) (m : Mark) :
  (∀ e, findWinningMove b m = Some e ↔
        ∃ l, firstWith (completable b m) winConditions l ∧ completes b m l e)
  ∧ (findWinningMove b m = None ↔
        ∀ l, l ∈ winConditions → ¬ completable b m l).
Proof.
  split.
  - intros e. apply findWinningMoveIn_Some.
  - apply findWinningMoveIn_None.
Qed.

(** ** Random indices and empty cells *)

Lemma randomIndex_lt r n : 0 < n → randomIndex r n < n.
Proof.
  intros Hn. unfold randomIndex. pose proof (rlt r) as Hr.
  apply Nat.Div0.div_lt_upper_bound. nia.
Qed.

Lemma randomIndex_lookup {A : Type} r (xs : list A) :
  xs ≠ [] → ∃ x, xs !! randomIndex r (length xs) = Some x ∧ x ∈ xs.
Proof.
  intros Hne. destruct (lookup_lt_is_Some_2 xs (randomIndex r (length xs))) as [x Hx].
  - apply randomIndex_lt. destruct xs; [done | simpl; lia].
  - exists x. split; [done |]. by eapply list_elem_of_lookup_2.
Qed.

Lemma elem_of_emptyIndices b i : i ∈ emptyIndices b ↔ b !! i = Some Empty.
Proof.
  unfold emptyIndices. rewrite list_elem_of_omap. split.
  - intros (o & Ho & ->). apply list_elem_of_lookup_1 in Ho as [j Hj].
    rewrite list_lookup_imap in Hj. destruct (b !! j) as [v |] eqn:Hv; [| done].
    simpl in Hj. case_bool_decide; simplify_eq. done.
  - intros Hi. exists (Some i). split; [| done].
    apply list_elem_of_lookup. exists i. by rewrite list_lookup_imap, Hi.
Qed.

Lemma emptyIndices_nil b : emptyIndices b = [] ↔ Empty ∉ b.
Proof.
  split.
  - intros Hnil [i Hi]%list_elem_of_lookup_1.
    apply elem_of_emptyIndices in Hi. rewrite Hnil in Hi. inversion Hi.
  - intros Hfull. destruct (emptyIndices b) as [| i rest] eqn:E; [done |].
    destruct Hfull. apply (list_elem_of_lookup_2 _ i).
    apply elem_of_emptyIndices. rewrite E. left.
Qed.

Lemma isBlank_true v : isBlank v = true ↔ v = Some Empty.
Proof. unfold isBlank, isMark. apply bool_decide_eq_true. Qed.

Lemma isBlank_false v : isBlank v = false ↔ v ≠ Some Empty.
Proof. unfold isBlank, isMark. apply bool_decide_eq_false. Qed.

(** ** The cascade of aiMove *)

Lemma winnable_findWinningMove b m :
  winnable b m ↔ is_Some (findWinningMove b m).
Proof.
  unfold findWinningMove. split.
  - intros (l & Hl & Hc).
    destruct (findWinningMoveIn b m winConditions) eqn:E; [by eexists |].
    exfalso. eapply findWinningMoveIn_None; eauto.
  - intros [e He].
    apply findWinningMoveIn_Some in He as (l & [Hl Hc]%firstWith_elem & _).
    by exists l.
Qed.

Lemma findWinningMove_completes b m e :
  findWinningMove b m = Some e → ∃ l, l ∈ winConditions ∧ completes b m l e.
Proof.
  intros (l & [Hl _]%firstWith_elem & He)%findWinningMoveIn_Some. eauto.
Qed.

Lemma findWinningMove_None_winnable b m :
  findWinningMove b m = None ↔ ¬ winnable b m.
Proof.
  rewrite winnable_findWinningMove. destruct (findWinningMove b m); split; try done.
  - intros []. by eexists.
Qed.

Lemma completes_blank b m l e : completes b m l e → b !! e = Some Empty.
Proof. destruct l as [[? ?] ?]. by intros (_ & ? & _). Qed.

Lemma cascade_win b c :
  findWinningMove b AI = Some c → cascade b c.
Proof.
  intros Hc. pose proof (findWinningMove_completes _ _ _ Hc) as (l & Hl & Hcomp).
  assert (winnable b AI) as Hw by (apply winnable_findWinningMove; by eexists).
  unfold cascade. split_and!; try done; eauto using completes_blank.
Qed.

Lemma cascade_block b c :
  findWinningMove b AI = None → findWinningMove b PLAYER = Some c → cascade b c.
Proof.
  intros Hn%findWinningMove_None_winnable Hc.
  pose proof (findWinningMove_completes _ _ _ Hc) as (l & Hl & Hcomp).
  assert (winnable b PLAYER) as Hw by (apply winnable_findWinningMove; by eexists).
  unfold cascade. split_and!; try done; eauto using completes_blank.
Qed.

Lemma cascade_centre b :
  findWinningMove b AI = None → findWinningMove b PLAYER = None →
  b !! 4 = Some Empty → cascade b 4.
Proof.
  intros Hn%findWinningMove_None_winnable Hp%findWinningMove_None_winnable H4.
  unfold cascade. split_and!; done.
Qed.

Lemma cascade_corner b c :
  findWinningMove b AI = None → findWinningMove b PLAYER = None →
  b !! 4 ≠ Some Empty → c ∈ cornerCells → b !! c = Some Empty → cascade b c.
Proof.
  intros Hn%findWinningMove_None_winnable Hp%findWinningMove_None_winnable H4 Hc Hb.
  unfold cascade. split_and!; done.
Qed.

Lemma cascade_any b c :
  findWinningMove b AI = None → findWinningMove b PLAYER = None →
  b !! 4 ≠ Some Empty → (∀ k, k ∈ cornerCells → b !! k ≠ Some Empty) →
  b !! c = Some Empty → cascade b c.
Proof.
  intros Hn%findWinningMove_None_winnable Hp%findWinningMove_None_winnable H4 Hk Hb.
  unfold cascade. split_and!; try done.
  intros _ _ _ (k & Hk1 & Hk2). by destruct (Hk k).
Qed.

Lemma chooseUpToCorner_Some r b c : chooseUpToCorner r b = Some c → cascade b c.
Proof.
  unfold chooseUpToCorner.
  destruct (findWinningMove b AI) as [e1 |] eqn:E1.
  { cbn. intros [= ->]. by apply cascade_win. }
  rewrite (bool_decide_eq_true_2 (None = None)) by done.
  destruct (findWinningMove b PLAYER) as [e2 |] eqn:E2.
  { cbn. intros [= ->]. by apply cascade_block. }
  rewrite (bool_decide_eq_true_2 (None = None)) by done.
  destruct (isBlank (b !! 4)) eqn:E4.
  { cbn. intros [= <-]. apply isBlank_true in E4. by apply cascade_centre. }
  apply isBlank_false in E4. cbn [andb].
  rewrite ?(bool_decide_eq_true_2 (None = None)) by done. cbn [andb].
  case_bool_decide as Hlen; [| done].
  intros Hc%list_elem_of_lookup_2. apply list_elem_of_filter in Hc as [Hb Hc].
  by apply cascade_corner.
Qed.

Lemma chooseUpToCorner_None r b :
  chooseUpToCorner r b = None →
  findWinningMove b AI = None ∧ findWinningMove b PLAYER = None
  ∧ b !! 4 ≠ Some Empty ∧ ∀ k, k ∈ cornerCells → b !! k ≠ Some Empty.
Proof.
  unfold chooseUpToCorner.
  destruct (findWinningMove b AI) as [e1 |] eqn:E1; [done |].
  rewrite (bool_decide_eq_true_2 (None = None)) by done.
  destruct (findWinningMove b PLAYER) as [e2 |] eqn:E2; [done |].
  rewrite (bool_decide_eq_true_2 (None = None)) by done.
  destruct (isBlank (b !! 4)) eqn:E4; [done |].
  apply isBlank_false in E4. cbn [andb].
  rewrite ?(bool_decide_eq_true_2 (None = None)) by done. cbn [andb].
  case_bool_decide as Hlen.
  - intros Hnone. exfalso.
    destruct (randomIndex_lookup r (filter (λ i, b !! i = Some Empty) [0; 2; 6; 8]))
      as (x & Hx & _); [by intros Heq; rewrite Heq in Hlen | congruence].
  - intros _. split_and!; try done. intros k Hk Hb.
    assert (k ∈ filter (λ i, b !! i = Some Empty) [0; 2; 6; 8]) as Hin
      by (by apply list_elem_of_filter).
    apply nil_length_inv in Hlen. rewrite Hlen in Hin. inversion Hin.
Qed.

(** ** What aiMove does *)

Lemma aiMove_not_active r s : gameActive s = false → aiMove r s = (s, []).
Proof. intros Hg. unfold aiMove. by rewrite Hg. Qed.

Lemma aiMove_plays r s :
  gameActive s = true → Empty ∈ boardState s →
  ∃ c, cascade (boardState s) c ∧ aiMove r s = applyAiMove c s.
Proof.
  intros Hg Hempty. unfold aiMove. rewrite Hg. cbn [negb].
  destruct (chooseUpToCorner r (boardState s)) as [c |] eqn:Hc.
  - exists c. split; [by eapply chooseUpToCorner_Some | done].
  - apply chooseUpToCorner_None in Hc as (Hn & Hp & H4 & Hk).
    assert (emptyIndices (boardState s) ≠ []) as Hne
      by (by intros Hnil%emptyIndices_nil).
    case_bool_decide as Hlen; [by apply nil_length_inv in Hlen |].
    destruct (randomIndex_lookup r _ Hne) as (c & -> & Hin).
    exists c. split; [| done].
    apply cascade_any; try done. by apply elem_of_emptyIndices.
Qed.

Lemma chooseUpToCorner_full r b : Empty ∉ b → chooseUpToCorner r b = None.
Proof.
  intros Hfull. destruct (chooseUpToCorner r b) as [c |] eqn:Hc; [| done].
  apply chooseUpToCorner_Some in Hc as (_ & _ & _ & _ & Hc).
  destruct Hfull. by eapply list_elem_of_lookup_2.
Qed.

Lemma aiMove_full r s :
  gameActive s = true → Empty ∉ boardState s →
  aiMove r s =
  if bool_decide (checkWinner (boardState s) = Some Draw)
  then finishGame Draw s else (s, []).
Proof.
  intros Hg Hfull. unfold aiMove. rewrite Hg. cbn [negb].
  rewrite chooseUpToCorner_full by done.
  apply emptyIndices_nil in Hfull. by rewrite Hfull.
Qed.

Lemma finishGame_state result s :
  (finishGame result s).1 =
  {| boardState := boardState s; gameActive := false; isProcessing := false |}.
Proof. unfold finishGame. by repeat case_bool_decide. Qed.

Lemma applyAiMove_board c s :
  boardState (applyAiMove c s).1 = <[c := AI]> (boardState s).
Proof.
  unfold applyAiMove, andThen. repeat case_bool_decide; cbn [fst];
    rewrite ?finishGame_state; done.
Qed.

Lemma applyAiMove_events c s : ∃ ev, (applyAiMove c s).2 = RenderMark c AI :: ev.
Proof. unfold applyAiMove, andThen. repeat case_bool_decide; by eexists. Qed.

(** C2.  When [aiMove] runs on an active game whose board has an [Empty]
    cell, the cell it marks is selected by the fixed-priority cascade, the
    first applicable rule deciding: a cell completing a combination of the
    AI if there is one; else a cell completing a combination of the player
    if there is one; else cell 4 if it is [Empty]; else an [Empty] corner
    among 0, 2, 6 and 8 if there is one; else some [Empty] cell.  The chosen
    cell is [Empty] beforehand, it receives the mark of the AI, and it is
    rendered. *)
Theorem aiMove_cascade (r : Random) (s : State) :
  gameActive s = true → Empty ∈ boardState s →
  ∃ c, cascade (boardState s) c
       ∧ boardState (aiMove r s).1 = <[c := AI]> (boardState s)
       ∧ boardState (aiMove r s).1 !! c = Some AI
       ∧ RenderMark c AI ∈ (aiMove r s).2.
Proof.
  intros Hg Hempty. destruct (aiMove_plays r s Hg Hempty) as (c & Hc & ->).
  exists c. rewrite applyAiMove_board. split_and!; [done | done | |].
  - apply list_lookup_insert_eq. apply lookup_lt_is_Some_1.
    destruct Hc as (_ & _ & _ & _ & Hb). by eexists.
  - destruct (applyAiMove_events c s) as [ev ->]. left.
Qed.

(** The cascade at work after the player has taken the centre of the empty
    board: no win and no block exist, the centre is occupied, and the AI
    answers in a corner. *)
Lemma aiMove_cascade_witness :
  (gameActive centreTakenState = true ∧ Empty ∈ boardState centreTakenState)
  ∧ ∃ c, cascade (boardState centreTakenState) c
       ∧ boardState (aiMove randomTwoThirds centreTakenState).1
         = <[c := AI]> (boardState centreTakenState)
       ∧ boardState (aiMove randomTwoThirds centreTakenState).1 !! c = Some AI
       ∧ RenderMark c AI ∈ (aiMove randomTwoThirds centreTakenState).2.
Proof.
  assert (gameActive centreTakenState = true) as Hg by reflexivity.
  assert (Empty ∈ boardState centreTakenState) as He by (vm_compute; left).
  split; [by split |].
  exact (aiMove_cascade randomTwoThirds centreTakenState Hg He).
Defined.

(** ** Placing a mark on an empty cell *)

Lemma checkWinner_None b :
  checkWinner b = None ↔ checkCombos b winConditions = None ∧ Empty ∈ b.
Proof.
  unfold checkWinner. destruct (checkCombos b winConditions).
  - split; [done | by intros [? _]].
  - case_bool_decide; split; try done. by intros [_ ?].
Qed.

Lemma checkWinner_Winner b m :
  checkWinner b = Some (Winner m) ↔ checkCombos b winConditions = Some m.
Proof.
  unfold checkWinner. destruct (checkCombos b winConditions).
  - split; congruence.
  - by case_bool_decide.
Qed.

Lemma checkWinner_Draw b :
  checkWinner b = Some Draw ↔ checkCombos b winConditions = None ∧ Empty ∉ b.
Proof.
  unfold checkWinner. destruct (checkCombos b winConditions).
  - split; [done | by intros [? _]].
  - case_bool_decide; split; try done. by intros [_ ?].
Qed.

Lemma completeLine_insert_other b i m m' l :
  m' ≠ m → completeLine (<[i := m]> b) m' l → completeLine b m' l.
Proof.
  intros Hne. destruct l as [[a b'] c]. intros (Hm & Ha & Hb & Hc).
  apply list_lookup_insert_Some in Ha as [(_ & ? & _) | [_ Ha]]; [done |].
  apply list_lookup_insert_Some in Hb as [(_ & ? & _) | [_ Hb]]; [done |].
  apply list_lookup_insert_Some in Hc as [(_ & ? & _) | [_ Hc]]; [done |].
  done.
Qed.

Section Place.
Context (b : list Mark) (i : nat) (m : Mark).
Hypothesis Hnone : checkWinner b = None.

Lemma no_line_before l m' : l ∈ winConditions → ¬ completeLine b m' l.
Proof.
  intros Hl Hc. apply checkWinner_None in Hnone as [Hn _].
  eapply checkCombos_None in Hn; [| done]. destruct Hn. by exists m'.
Qed.

Lemma place_lines_of_mover l m' :
  l ∈ winConditions → completeLine (<[i := m]> b) m' l → m' = m.
Proof.
  intros Hl Hc. destruct (decide (m' = m)) as [| Hne]; [done |].
  apply completeLine_insert_other in Hc; [| done].
  by destruct (no_line_before l m').
Qed.

Lemma place_winner m' : checkWinner (<[i := m]> b) = Some (Winner m') → m' = m.
Proof.
  intros (l & [Hl _]%firstWith_elem & Hc)%checkWinner_Winner%checkCombos_Some.
  by eapply place_lines_of_mover.
Qed.

Lemma place_not_both : ¬ bothComplete (<[i := m]> b).
Proof.
  intros [(l1 & Hl1 & H1) (l2 & Hl2 & H2)].
  apply place_lines_of_mover in H1, H2; [| done ..].
  unfold PLAYER, AI in *. congruence.
Qed.
End Place.

Lemma bothComplete_not_active b : checkWinner b = None → ¬ bothComplete b.
Proof.
  intros Hnone [(l & Hl & Hc) _]. by eapply no_line_before.
Qed.

(** ** The invariant *)

Lemma invariant_initial : invariant initialState.
Proof.
  unfold invariant. split_and!; try done.
  by apply bothComplete_not_active.
Qed.

Lemma invariant_finished result s :
  length (boardState s) = 9 → checkWinner (boardState s) ≠ None →
  ¬ bothComplete (boardState s) → invariant (finishGame result s).1.
Proof.
  intros Hlen Hw Hb. rewrite finishGame_state. unfold invariant. cbn.
  split_and!; done.
Qed.

Lemma cellAt_blank b index :
  cellAt b index = Some Empty → (0 ≤ index)%Z ∧ b !! Z.to_nat index = Some Empty.
Proof. unfold cellAt. by case_decide. Qed.

Lemma handlePlayerMove_guard index s :
  gameActive s = false ∨ isProcessing s = true
  ∨ cellAt (boardState s) index ≠ Some Empty →
  handlePlayerMove index s = (s, []).
Proof.
  unfold handlePlayerMove. intros [-> | [-> | Hc]]; [done | by rewrite orb_true_r |].
  apply isBlank_false in Hc. rewrite Hc. by destruct (_ || _).
Qed.

(** The state after a mark has been placed and the outcome checked, as both
    [handlePlayerMove] and [aiMove] do it: the game is finished on a win of
    the mover or a draw, and goes on with the given flag otherwise. *)
Lemma invariant_placed (b : list Mark) (i : nat) (m : Mark) (s' : State) :
  length b = 9 → checkWinner b = None →
  boardState s' = <[i := m]> b →
  (checkWinner (<[i := m]> b) = None → gameActive s' = true)
  → (checkWinner (<[i := m]> b) ≠ None → gameActive s' = false ∧ isProcessing s' = false)
  → invariant s'.
Proof.
  intros Hlen Hnone Hb Hgo Hend. unfold invariant. rewrite Hb, length_insert.
  split_and!; [done | | |].
  - intros Hg. destruct (checkWinner (<[i := m]> b)) eqn:E; [| done].
    destruct Hend as [Hend _]; [done | congruence].
  - intros Hg. destruct (checkWinner (<[i := m]> b)) eqn:E.
    + destruct Hend as [_ Hend]; done.
    + rewrite Hgo in Hg; done.
  - by apply place_not_both.
Qed.

Lemma invariant_handlePlayerMove index s :
  invariant s → invariant (handlePlayerMove index s).1.
Proof.
  intros Hinv.
  destruct (gameActive s) eqn:Hg;
    [| by rewrite handlePlayerMove_guard by (by left)].
  destruct (isProcessing s) eqn:Hp;
    [by rewrite handlePlayerMove_guard by (right; by left) |].
  destruct (decide (cellAt (boardState s) index = Some Empty)) as [Hc | Hc];
    [| by rewrite handlePlayerMove_guard by (right; by right)].
  destruct Hinv as (Hlen & Hact & _ & _). specialize (Hact Hg).
  unfold handlePlayerMove. rewrite Hg, Hp. apply isBlank_true in Hc. rewrite Hc.
  cbn [negb orb boardState gameActive isProcessing].
  set (b1 := <[Z.to_nat index := PLAYER]> (boardState s)).
  apply (invariant_placed (boardState s) (Z.to_nat index) PLAYER); [done | done | ..].
  - repeat case_bool_decide; unfold andThen; cbn [fst];
      rewrite ?finishGame_state; done.
  - fold b1. intros Hn. rewrite Hn.
    rewrite !bool_decide_eq_false_2 by done. done.
  - fold b1. intros Hn.
    destruct (checkWinner b1) as [[m' |] |] eqn:E; [| | done].
    + apply place_winner in E as ->; [| done].
      rewrite bool_decide_eq_true_2 by done. unfold andThen. cbn [fst].
      by rewrite finishGame_state.
    + rewrite bool_decide_eq_false_2 by done.
      rewrite bool_decide_eq_true_2 by done. unfold andThen. cbn [fst].
      by rewrite finishGame_state.
Qed.

Lemma invariant_applyAiMove c s :
  invariant s → gameActive s = true → invariant (applyAiMove c s).1.
Proof.
  intros (Hlen & Hact & _ & _) Hg. specialize (Hact Hg).
  unfold applyAiMove. cbn [boardState gameActive isProcessing].
  set (b1 := <[c := AI]> (boardState s)).
  apply (invariant_placed (boardState s) c AI); [done | done | ..].
  - repeat case_bool_decide; unfold andThen; cbn [fst];
      rewrite ?finishGame_state; done.
  - fold b1. intros Hn. rewrite Hn.
    rewrite !bool_decide_eq_false_2 by done. done.
  - fold b1. intros Hn.
    destruct (checkWinner b1) as [[m' |] |] eqn:E; [| | done].
    + apply place_winner in E as ->; [| done].
      rewrite bool_decide_eq_true_2 by done. unfold andThen. cbn [fst].
      by rewrite finishGame_state.
    + rewrite bool_decide_eq_false_2 by done.
      rewrite bool_decide_eq_true_2 by done. unfold andThen. cbn [fst].
      by rewrite finishGame_state.
Qed.

Lemma invariant_aiMove r s : invariant s → invariant (aiMove r s).1.
Proof.
  intros Hinv. destruct (gameActive s) eqn:Hg.
  - pose proof Hinv as (_ & Hact & _ & _).
    pose proof (Hact Hg) as [_ Hempty]%checkWinner_None.
    destruct (aiMove_plays r s Hg Hempty) as (c & _ & ->).
    by apply invariant_applyAiMove.
  - by rewrite aiMove_not_active.
Qed.

Lemma invariant_timerCallback r s : invariant s → invariant (timerCallback r s).1.
Proof.
  intros Hinv%(invariant_aiMove r). unfold timerCallback.
  destruct (aiMove r s) as [s' ev]. cbn [fst] in *.
  destruct Hinv as (Hlen & Hact & Hinact & Hboth). unfold invariant. cbn.
  split_and!; try done. intros Hg. split; [done |]. by apply Hinact.
Qed.

Lemma invariant_run c s : invariant s → invariant (run c s).1.
Proof.
  destruct c as [index | r |]; cbn [run].
  - apply invariant_handlePlayerMove.
  - apply invariant_timerCallback.
  - intros _. apply invariant_initial.
Qed.

Lemma reachable_invariant s : reachable s → invariant s.
Proof.
  induction 1 as [| c s _ IH]; [apply invariant_initial | by apply invariant_run].
Qed.

Lemma played_reachable s : played s → reachable s.
Proof.
  induction 1 as [| index s _ IH _ | r s _ IH _].
  - constructor.
  - apply (reachable_run (PlayerMove index)), IH.
  - apply (reachable_run (AgentMove r)), IH.
Qed.

(** ** The state machine *)

Lemma played_lostGameState : played lostGameState.
Proof.
  unfold lostGameState.
  apply played_agent; [| reflexivity].
  apply played_player; [| reflexivity].
  apply played_agent; [| reflexivity].
  apply played_player; [| reflexivity].
  apply played_agent; [| reflexivity].
  apply played_player; [| reflexivity].
  apply played_init.
Qed.

(** The single-winner property holds after any sequence of calls, also when
    a restart leaves a timer pending. *)
Lemma reachable_single_winner (s : State) (l1 l2 : Combo) (m1 m2 : Mark) :
  reachable s →
  l1 ∈ winConditions → l2 ∈ winConditions →
  completeLine (boardState s) m1 l1 → completeLine (boardState s) m2 l2 →
  m1 = m2.
Proof.
  intros (_ & _ & _ & Hboth)%reachable_invariant Hl1 Hl2 H1 H2.
  assert (m1 ≠ Empty ∧ m2 ≠ Empty) as [Hm1 Hm2].
  { destruct l1 as [[? ?] ?], l2 as [[? ?] ?]. split; [apply H1 | apply H2]. }
  destruct m1, m2; try done; destruct Hboth; split; eauto.
Qed.

(** C9.  On every board of a game played in turns from the empty board, at
    most one mark has a complete combination: two complete combinations
    always hold the same mark, so [checkWinner] never has two different
    winners to choose from. *)
Theorem played_single_winner (s : State) (l1 l2 : Combo) (m1 m2 : Mark) :
  played s →
  l1 ∈ winConditions → l2 ∈ winConditions →
  completeLine (boardState s) m1 l1 → completeLine (boardState s) m2 l2 →
  m1 = m2.
Proof.
  intros Hs%played_reachable Hl1 Hl2 H1 H2.
  by apply (reachable_single_winner s l1 l2).
Qed.

Lemma played_single_winner_witness :
  (played lostGameState
   ∧ (2, 4, 6) ∈ winConditions
   ∧ completeLine (boardState lostGameState) AI (2, 4, 6))
  ∧ AI = AI.
Proof.
  assert ((2, 4, 6) ∈ winConditions) as Hl by (apply list_elem_of_In; vm_compute; tauto).
  assert (completeLine (boardState lostGameState) AI (2, 4, 6)) as Hc
    by (vm_compute; split_and!; congruence).
  split; [split_and!; [apply played_lostGameState | done | done] |].
  exact (played_single_winner lostGameState (2, 4, 6) (2, 4, 6) AI AI
           played_lostGameState Hl Hl Hc Hc).
Defined.

(** C8.  A call of [handlePlayerMove] or [aiMove], and the timer callback
    around [aiMove], leave a finished game finished: when [gameActive] is
    false before the call it is false after it, and the board is the same.
    Only [resetGame] sets [gameActive] again. *)
Theorem terminal_stays_terminal (s : State) (index : Z) (r : Random) :
  Terminal s →
  (Terminal (handlePlayerMove index s).1
   ∧ boardState (handlePlayerMove index s).1 = boardState s)
  ∧ (Terminal (aiMove r s).1 ∧ boardState (aiMove r s).1 = boardState s)
  ∧ (Terminal (timerCallback r s).1
     ∧ boardState (timerCallback r s).1 = boardState s).
Proof.
  intros Ht. unfold timerCallback.
  rewrite handlePlayerMove_guard by (by left).
  rewrite aiMove_not_active by done. done.
Qed.

Lemma terminal_stays_terminal_witness :
  Terminal lostGameState
  ∧ (Terminal (handlePlayerMove 5 lostGameState).1
     ∧ boardState (handlePlayerMove 5 lostGameState).1 = boardState lostGameState)
  ∧ (Terminal (aiMove randomZero lostGameState).1
     ∧ boardState (aiMove randomZero lostGameState).1 = boardState lostGameState)
  ∧ (Terminal (timerCallback randomZero lostGameState).1
     ∧ boardState (timerCallback randomZero lostGameState).1
       = boardState lostGameState).
Proof.
  split; [reflexivity |].
  apply (terminal_stays_terminal lostGameState 5 randomZero). reflexivity.
Defined.

(** C10.  When the game is over, [aiMove] does nothing: it returns the state
    as it is (board, [gameActive] and [isProcessing]), places no mark and
    touches nothing on the page. *)
Theorem aiMove_terminal_noop (r : Random) (s : State) :
  Terminal s → aiMove r s = (s, []).
Proof. intros Ht. unfold aiMove. by rewrite Ht. Qed.

Lemma aiMove_terminal_noop_witness :
  Terminal lostGameState ∧ aiMove randomZero lostGameState = (lostGameState, []).
Proof.
  split; [reflexivity |].
  apply (aiMove_terminal_noop randomZero lostGameState). reflexivity.
Defined.

(** C6.  When the game is over, or the AI is pending ([isProcessing]), or
    the target cell does not hold [''], [handlePlayerMove] is a silent
    no-op: it returns the state as it is and touches nothing on the page. *)
Theorem handlePlayerMove_illegal_noop (index : Z) (s : State) :
  Terminal s ∨ isProcessing s = true ∨ cellAt (boardState s) index ≠ Some Empty →
  handlePlayerMove index s = (s, []).
Proof.
  unfold handlePlayerMove, Terminal.
  intros [-> | [-> | Hc%isBlank_false]]; [done | by rewrite orb_true_r |].
  rewrite Hc. by destruct (_ || _).
Qed.

Lemma handlePlayerMove_illegal_noop_witness :
  cellAt (boardState centreTakenState) 4 ≠ Some Empty
  ∧ handlePlayerMove 4 centreTakenState = (centreTakenState, []).
Proof.
  assert (cellAt (boardState centreTakenState) 4 ≠ Some Empty) as Hc
    by (vm_compute; congruence).
  split; [exact Hc |].
  apply (handlePlayerMove_illegal_noop 4 centreTakenState). right. right. exact Hc.
Defined.

(** C5, as the code has it.  An index outside of 0..8 is not rejected with
    an error: [handlePlayerMove] reads [undefined] from the board of 9
    cells, takes the cell for occupied and returns without any effect. *)
Theorem handlePlayerMove_out_of_range (index : Z) (s : State) :
  length (boardState s) = 9 → (index < 0 ∨ 8 < index)%Z →
  handlePlayerMove index s = (s, []).
Proof.
  intros Hlen Hout. apply handlePlayerMove_guard. right. right.
  unfold cellAt. case_decide as Hpos; [| done].
  rewrite lookup_ge_None_2 by lia. done.
Qed.

Lemma handlePlayerMove_out_of_range_witness :
  (length (boardState initialState) = 9 ∧ (8 < 9)%Z)
  ∧ handlePlayerMove 9 initialState = (initialState, []).
Proof.
  split; [split; [reflexivity | lia] |].
  apply (handlePlayerMove_out_of_range 9 initialState); [reflexivity | lia].
Defined.

(** C5, counterexample.  The indices 9 and -1 on the initial state: the call
    returns normally, with the state unchanged and nothing done. *)
Lemma handlePlayerMove_out_of_range_ignored :
  handlePlayerMove 9 initialState = (initialState, [])
  ∧ handlePlayerMove (-1) initialState = (initialState, []).
Proof. split; reflexivity. Qed.

(** C1, as the code has it.  When [aiMove] runs on a board without an
    [Empty] cell it places no mark; if the game is active and
    [checkWinner] reports the draw, it finishes the game as a draw, and in
    every other case it does nothing. *)
Theorem aiMove_full_board (r : Random) (s : State) :
  Empty ∉ boardState s →
  boardState (aiMove r s).1 = boardState s
  ∧ aiMove r s =
    if gameActive s && bool_decide (checkWinner (boardState s) = Some Draw)
    then ({| boardState := boardState s; gameActive := false; isProcessing := false |},
          [ShowStatus ItsADraw])
    else (s, []).
Proof.
  intros Hfull. destruct (gameActive s) eqn:Hg; cbn [andb].
  - rewrite aiMove_full by done. by case_bool_decide.
  - by rewrite aiMove_not_active.
Qed.

Lemma aiMove_full_board_witness :
  (Empty ∉ boardState fullBoardState)
  ∧ boardState (aiMove randomZero fullBoardState).1 = boardState fullBoardState
  ∧ aiMove randomZero fullBoardState =
    if gameActive fullBoardState
       && bool_decide (checkWinner (boardState fullBoardState) = Some Draw)
    then ({| boardState := boardState fullBoardState;
             gameActive := false; isProcessing := false |},
          [ShowStatus ItsADraw])
    else (fullBoardState, []).
Proof.
  assert (Empty ∉ boardState fullBoardState) as Hfull
    by (intros Hin%list_elem_of_In; vm_compute in Hin; intuition congruence).
  split; [exact Hfull |].
  exact (aiMove_full_board randomZero fullBoardState Hfull).
Defined.

(** C1, counterexample.  On a full board without a complete combination and
    with the game still active, [aiMove] returns normally and resolves the
    game as a draw. *)
Lemma aiMove_full_board_draws :
  (Empty ∉ boardState fullBoardState)
  ∧ gameActive fullBoardState = true
  ∧ aiMove randomZero fullBoardState =
    ({| boardState := [X; O; X; X; O; O; O; X; X];
        gameActive := false; isProcessing := false |},
     [ShowStatus ItsADraw]).
Proof.
  split_and!; [| reflexivity | reflexivity].
  intros Hin%list_elem_of_In. vm_compute in Hin. intuition congruence.
Qed.

(** C7.  [resetGame] has no precondition and from any state yields the
    board of nine [Empty] cells, on which the game goes on, with
    [gameActive] set and [isProcessing] cleared; the page shows that it is
    the player's turn, and a move of the player on any of the nine cells is
    accepted. *)
Theorem resetGame_fresh (s : State) :
  boardState (resetGame s).1 = replicate 9 Empty
  ∧ checkWinner (boardState (resetGame s).1) = None
  ∧ gameActive (resetGame s).1 = true
  ∧ isProcessing (resetGame s).1 = false
  ∧ last (resetGame s).2 = Some (ShowStatus YourTurn)
  ∧ Forall (λ index,
      boardState (handlePlayerMove index (resetGame s).1).1
      = <[Z.to_nat index := PLAYER]> (replicate 9 Empty)
      ∧ (handlePlayerMove index (resetGame s).1).2
        = [RenderMark (Z.to_nat index) PLAYER; ShowStatus AIsTurn;
           SetTimeout THINK_DELAY])
     (seqZ 0 9).
Proof.
  split_and!; try reflexivity.
  change (seqZ 0 9) with [0; 1; 2; 3; 4; 5; 6; 7; 8]%Z.
  repeat (apply Forall_cons_2; [split; reflexivity |]). apply Forall_nil_2.
Qed.

(** ** More on reachable states *)

(** The flag [gameActive] mirrors the outcome of the board: the game is
    active exactly when [checkWinner] returns [null]. *)
Lemma reachable_active_iff (s : State) :
  reachable s → (gameActive s = true ↔ checkWinner (boardState s) = None).
Proof.
  intros (_ & Hact & Hinact & _)%reachable_invariant. split; [done |].
  intros Hn. destruct (gameActive s); [done |]. by destruct Hinact.
Qed.

Lemma reachable_length (s : State) : reachable s → length (boardState s) = 9.
Proof. by intros (Hlen & _)%reachable_invariant. Qed.

(** [resetGame] does not cancel the timer: when the restart button is
    pressed while the AI is pending, the callback still runs and the AI
    opens the new game in the centre. *)
Lemma stale_timer_after_reset (r : Random) :
  isProcessing centreTakenState = true
  ∧ boardState (timerCallback r (resetGame centreTakenState).1).1
    = <[4 := AI]> emptyBoard.
Proof. split; reflexivity. Qed.

(** ** Scenarios *)

(** The player threatens on cells 0 and 1: the completing cell is 2. *)
Lemma scenario_threat :
  findWinningMove [X; X; Empty; Empty; Empty; Empty; Empty; Empty; Empty] PLAYER
  = Some 2.
Proof. reflexivity. Qed.

(** The AI has no winning cell and blocks the diagonal 2, 4, 6. *)
Lemma scenario_block (r : Random) :
  findWinningMove [X; O; X; O; X; O; Empty; Empty; O] AI = None
  ∧ boardState
      (aiMove r {| boardState := [X; O; X; O; X; O; Empty; Empty; O];
                   gameActive := true; isProcessing := true |}).1
    = [X; O; X; O; X; O; O; Empty; O].
Proof. split; reflexivity. Qed.

(** A full board without three in a row is a draw. *)
Lemma scenario_draw : checkWinner [X; O; X; X; O; O; O; X; X] = Some Draw.
Proof. reflexivity. Qed.

(** After the player has taken the centre of the empty board, the AI answers
    in a corner, whatever the random number. *)
Lemma scenario_corner (r : Random) :
  ∃ c, c ∈ cornerCells
       ∧ boardState (aiMove r centreTakenState).1
         = <[c := AI]> (boardState centreTakenState).
Proof.
  destruct (aiMove_plays r centreTakenState) as (c & Hc & ->);
    [reflexivity | vm_compute; left |].
  exists c. split; [| apply applyAiMove_board].
  destruct Hc as (_ & _ & _ & Hcorner & _). apply Hcorner.
  - by apply findWinningMove_None_winnable.
  - by apply findWinningMove_None_winnable.
  - vm_compute. congruence.
  - exists 0. split; [left | reflexivity].
Qed.

(** A move on an occupied cell changes nothing. *)
Lemma scenario_occupied :
  handlePlayerMove 4 centreTakenState = (centreTakenState, []).
Proof. reflexivity. Qed.

(** ** Counting marks *)

Lemma countMark_insert b i v w m :
  b !! i = Some v →
  countMark m (<[i := w]> b) + (if decide (v = m) then 1 else 0)
  = countMark m b + (if decide (w = m) then 1 else 0).
Proof.
  unfold countMark. revert i. induction b as [| x b IH]; intros i Hi; [done |].
  destruct i as [| i]; simplify_eq/=.
  - rewrite !filter_cons. repeat case_decide; simpl; lia.
  - specialize (IH i Hi). rewrite !filter_cons.
    repeat case_decide; simpl in *; lia.
Qed.

Lemma countMark_place b i m :
  b !! i = Some Empty → m ≠ Empty →
  countMark m (<[i := m]> b) = S (countMark m b)
  ∧ S (countMark Empty (<[i := m]> b)) = countMark Empty b
  ∧ ∀ m', m' ≠ m → m' ≠ Empty → countMark m' (<[i := m]> b) = countMark m' b.
Proof.
  intros Hi Hm. split_and!.
  - pose proof (countMark_insert b i Empty m m Hi) as H.
    rewrite decide_False, decide_True in H by done. lia.
  - pose proof (countMark_insert b i Empty m Empty Hi) as H.
    rewrite decide_True, decide_False in H by done. lia.
  - intros m' Hne Hne'. pose proof (countMark_insert b i Empty m m' Hi) as H.
    rewrite !decide_False in H by done. lia.
Qed.

Lemma countMark_zero m b : countMark m b = 0 ↔ m ∉ b.
Proof.
  unfold countMark. split.
  - intros Hz%nil_length_inv Hin.
    assert (m ∈ filter (λ v, v = m) b) as Hf by (by apply list_elem_of_filter).
    rewrite Hz in Hf. inversion Hf.
  - intros Hnin. destruct (filter (λ v, v = m) b) as [| x l] eqn:E; [done |].
    assert (x ∈ filter (λ v, v = m) b) as [-> Hx]%list_elem_of_filter
      by (rewrite E; left).
    done.
Qed.

(** ** Accepted moves *)

Lemma winConditions_distinct l :
  l ∈ winConditions →
  let '(a, b', c) := l in a ≠ b' ∧ b' ≠ c ∧ a ≠ c ∧ a < 9 ∧ b' < 9 ∧ c < 9.
Proof.
  intros Hl%list_elem_of_In. cbn in Hl.
  repeat (destruct Hl as [<- | Hl]; [repeat split; lia |]). done.
Qed.

Lemma handlePlayerMove_accepted index s :
  gameActive s = true → isProcessing s = false →
  cellAt (boardState s) index = Some Empty →
  let i := Z.to_nat index in
  let b1 := <[i := PLAYER]> (boardState s) in
  (handlePlayerMove index s).1 =
    {| boardState := b1; gameActive := negb (endsGame PLAYER b1);
       isProcessing := negb (endsGame PLAYER b1) |}
  ∧ ∃ ev, (handlePlayerMove index s).2 = RenderMark i PLAYER :: ev.
Proof.
  intros Hg Hp Hc. unfold handlePlayerMove, endsGame, andThen.
  rewrite Hg, Hp. apply isBlank_true in Hc. rewrite Hc.
  cbn [negb orb boardState gameActive isProcessing].
  repeat case_bool_decide; cbn [fst snd negb orb app];
    rewrite ?finishGame_state; split; try done; by eexists.
Qed.

Lemma applyAiMove_state c s :
  gameActive s = true →
  let b1 := <[c := AI]> (boardState s) in
  (applyAiMove c s).1 =
    {| boardState := b1; gameActive := negb (endsGame AI b1);
       isProcessing := if endsGame AI b1 then false else isProcessing s |}.
Proof.
  intros Hg. unfold applyAiMove, endsGame, andThen.
  cbn [boardState gameActive isProcessing]. rewrite Hg.
  repeat case_bool_decide; cbn [fst negb orb]; rewrite ?finishGame_state; done.
Qed.

Lemma endsGame_after_place b i m :
  checkWinner b = None →
  endsGame m (<[i := m]> b) = bool_decide (checkWinner (<[i := m]> b) ≠ None).
Proof.
  intros Hnone. unfold endsGame.
  destruct (checkWinner (<[i := m]> b)) as [[m' |] |] eqn:E.
  - apply place_winner in E as ->; [| done].
    repeat case_bool_decide; simplify_eq; done.
  - repeat case_bool_decide; simplify_eq; done.
  - repeat case_bool_decide; simplify_eq; done.
Qed.

(** ** The cell returned by findWinningMove *)

Lemma findWinningMove_line b m e :
  findWinningMove b m = Some e →
  ∃ l, l ∈ winConditions ∧ completeLine (<[e := m]> b) m l.
Proof.
  intros (l & Hl & Hc)%findWinningMove_completes. exists l. split; [done |].
  destruct l as [[a b'] c]. destruct Hc as (Hm & He & Hc).
  assert (e < length b) as Hlt by (apply lookup_lt_is_Some_1; by eexists).
  assert (∀ j, b !! j = Some m → <[e := m]> b !! j = Some m) as Hkeep.
  { intros j Hj. rewrite list_lookup_insert_ne; [done | congruence]. }
  destruct Hc as [(-> & Hb & Hc) | [(-> & Ha & Hc) | (-> & Ha & Hb)]];
    split_and!; auto using list_lookup_insert_eq.
Qed.

Lemma findWinningMove_blank b m e :
  findWinningMove b m = Some e → b !! e = Some Empty.
Proof.
  intros (l & Hl & Hc)%findWinningMove_completes. by eapply completes_blank.
Qed.

(** X1.  The cell that [findWinningMove] returns for [m] is an [Empty] cell
    of the board, and marking it with [m] completes a combination: the
    helper never proposes an occupied cell or a cell that does not win. *)
Theorem findWinningMove_wins (b : list Mark) (m : Mark) (e : nat) :
  findWinningMove b m = Some e →
  b !! e = Some Empty
  ∧ ∃ l, l ∈ winConditions ∧ completeLine (<[e := m]> b) m l.
Proof.
  intros He. split; [by eapply findWinningMove_blank | by apply findWinningMove_line].
Qed.

Lemma findWinningMove_wins_witness :
  findWinningMove [X; X; Empty; Empty; O; Empty; Empty; Empty; O] PLAYER = Some 2
  ∧ [X; X; Empty; Empty; O; Empty; Empty; Empty; O] !! 2 = Some Empty
  ∧ ∃ l, l ∈ winConditions
         ∧ completeLine (<[2 := PLAYER]> [X; X; Empty; Empty; O; Empty; Empty; Empty; O])
             PLAYER l.
Proof.
  split; [reflexivity |].
  apply (findWinningMove_wins [X; X; Empty; Empty; O; Empty; Empty; Empty; O] PLAYER 2).
  reflexivity.
Defined.

(** X2.  On a board where [m] has no complete combination yet,
    [findWinningMove] finds a cell whenever one exists: if marking some
    [Empty] cell with [m] completes a combination, the result is not
    [null]. *)
Theorem findWinningMove_finds (b : list Mark) (m : Mark) (e : nat) (l : Combo) :
  (∀ l', l' ∈ winConditions → ¬ completeLine b m l') →
  b !! e = Some Empty → l ∈ winConditions →
  completeLine (<[e := m]> b) m l →
  is_Some (findWinningMove b m).
Proof.
  intros Hnone He Hl Hc. apply winnable_findWinningMove. exists l. split; [done |].
  exists e. pose proof (winConditions_distinct l Hl) as Hd.
  pose proof (Hnone l Hl) as Hn.
  destruct l as [[a b'] c]. destruct Hd as (Hab & Hbc & Hac & _).
  destruct Hc as (Hm & Ha & Hb & Hc). unfold completes, completeLine in *.
  apply list_lookup_insert_Some in Ha as [(<- & _ & _) | [Hea Ha]];
    apply list_lookup_insert_Some in Hb as [(Heb & _ & _) | [Heb Hb]];
    apply list_lookup_insert_Some in Hc as [(Hec & _ & _) | [Hec Hc]];
    try congruence; try (destruct Hn; by split_and!);
    subst; split_and!; auto.
Qed.

Lemma findWinningMove_finds_witness :
  is_Some (findWinningMove [O; Empty; O; Empty; X; Empty; Empty; X; Empty] AI).
Proof.
  apply (findWinningMove_finds [O; Empty; O; Empty; X; Empty; Empty; X; Empty] AI 1 (0, 1, 2)).
  - intros [[a b'] c] Hl%list_elem_of_In (_ & Ha & Hb & Hc). cbn in Hl.
    repeat (destruct Hl as [[= <- <- <-] | Hl]; [vm_compute in Ha, Hb, Hc; congruence |]). done.
  - reflexivity.
  - apply list_elem_of_In. cbn. tauto.
  - split_and!; [discriminate | reflexivity ..].
Defined.

(** ** Highlighting the winning cells *)

Lemma highlightWinningCellsIn_winner b m combos :
  checkCombos b combos = Some m →
  ∃ l, firstWith (someComplete b) combos l ∧ completeLine b m l
       ∧ highlightWinningCellsIn b m combos = [HighlightWin l].
Proof.
  induction combos as [| l0 rest IH]; [done |].
  rewrite checkCombos_cons. destruct (comboWinner b l0) as [m' |] eqn:E.
  - intros [= ->]. apply comboWinner_Some in E. exists l0.
    split_and!; [apply firstWith_here; by exists m | done |].
    destruct l0 as [[a b'] c]. destruct E as (_ & Ha & Hb & Hc).
    simpl. unfold isMark. by rewrite Ha, Hb, Hc, !bool_decide_eq_true_2.
  - intros Hrest. destruct (IH Hrest) as (l & Hf & Hc & Hh).
    apply comboWinner_None in E. exists l.
    split_and!; [by apply firstWith_later | done |].
    assert (m ≠ Empty) as Hm by (destruct l as [[? ?] ?]; apply Hc).
    destruct l0 as [[a b'] c]. simpl.
    destruct (isMark m (b !! a) && isMark m (b !! b') && isMark m (b !! c)) eqn:Ht;
      [| done].
    destruct E. exists m. unfold isMark in Ht.
    apply andb_true_iff in Ht as [[Ha Hb]%andb_true_iff Hc'].
    apply bool_decide_eq_true in Ha, Hb, Hc'. by split_and!.
Qed.

Lemma highlightWinningCellsIn_none b m combos :
  m ≠ Empty → (∀ l, l ∈ combos → ¬ completeLine b m l) →
  highlightWinningCellsIn b m combos = [].
Proof.
  intros Hm. induction combos as [| [[a b'] c] rest IH]; intros Hnone; [done |].
  simpl. destruct (isMark m (b !! a) && isMark m (b !! b') && isMark m (b !! c)) eqn:Ht.
  - destruct (Hnone (a, b', c)); [left |]. unfold isMark in Ht.
    apply andb_true_iff in Ht as [[Ha Hb]%andb_true_iff Hc'].
    apply bool_decide_eq_true in Ha, Hb, Hc'. by split_and!.
  - apply IH. intros l Hl. apply Hnone. by right.
Qed.

Lemma highlightWinningCellsIn_only b m combos ev :
  ev ∈ highlightWinningCellsIn b m combos → ∃ l, ev = HighlightWin l.
Proof.
  induction combos as [| [[a b'] c] rest IH]; simpl; [by intros ?%elem_of_nil |].
  destruct (_ && _); [| done]. intros ->%list_elem_of_singleton. by eexists.
Qed.

Lemma highlightWinningCells_line b m :
  checkWinner b = Some (Winner m) →
  ∃ l, completeLine b m l ∧ highlightWinningCells b m = [HighlightWin l].
Proof.
  intros Hw%checkWinner_Winner.
  destruct (highlightWinningCellsIn_winner b m winConditions Hw) as (l & _ & Hc & Hh).
  by exists l.
Qed.

(** X3.  The cells that [highlightWinningCells] marks for the winner are
    those of the very combination that made [checkWinner] report the win:
    the first complete combination in the order of [winConditions].  For a
    mark without a complete combination nothing is highlighted. *)
Theorem highlightWinningCells_agrees (b : list Mark) (m : Mark) :
  (checkWinner b = Some (Winner m) →
   ∃ l, firstWith (someComplete b) winConditions l ∧ completeLine b m l
        ∧ highlightWinningCells b m = [HighlightWin l])
  ∧ (m ≠ Empty → (∀ l, l ∈ winConditions → ¬ completeLine b m l) →
     highlightWinningCells b m = []).
Proof.
  split.
  - intros Hw%checkWinner_Winner. by apply highlightWinningCellsIn_winner.
  - apply highlightWinningCellsIn_none.
Qed.

Lemma highlightWinningCells_agrees_witness :
  checkWinner (boardState lostGameState) = Some (Winner AI)
  ∧ ∃ l, firstWith (someComplete (boardState lostGameState)) winConditions l
         ∧ completeLine (boardState lostGameState) AI l
         ∧ highlightWinningCells (boardState lostGameState) AI = [HighlightWin l].
Proof.
  split; [reflexivity |].
  apply (proj1 (highlightWinningCells_agrees (boardState lostGameState) AI)).
  reflexivity.
Defined.

(** ** Effects of an accepted move *)

Lemma handlePlayerMove_accepted_events index s :
  gameActive s = true → isProcessing s = false →
  cellAt (boardState s) index = Some Empty →
  let i := Z.to_nat index in
  let b1 := <[i := PLAYER]> (boardState s) in
  (handlePlayerMove index s).2 =
  RenderMark i PLAYER ::
    (if bool_decide (checkWinner b1 = Some (Winner PLAYER))
     then ShowStatus YouWin :: highlightWinningCells b1 PLAYER
     else if bool_decide (checkWinner b1 = Some Draw)
          then [ShowStatus ItsADraw]
          else [ShowStatus AIsTurn; SetTimeout THINK_DELAY]).
Proof.
  intros Hg Hp Hc. unfold handlePlayerMove, andThen.
  rewrite Hg, Hp. apply isBlank_true in Hc. rewrite Hc.
  cbn [negb orb boardState gameActive isProcessing].
  repeat case_bool_decide; done.
Qed.

Lemma applyAiMove_events_full c s :
  let b1 := <[c := AI]> (boardState s) in
  (applyAiMove c s).2 =
  RenderMark c AI ::
    (if bool_decide (checkWinner b1 = Some (Winner AI))
     then ShowStatus YouLose :: highlightWinningCells b1 AI
     else if bool_decide (checkWinner b1 = Some Draw)
          then [ShowStatus ItsADraw]
          else [ShowStatus YourTurn]).
Proof.
  unfold applyAiMove, andThen. cbn [boardState gameActive isProcessing].
  repeat case_bool_decide; done.
Qed.

Lemma chooseUpToCorner_win r b c :
  findWinningMove b AI = Some c → chooseUpToCorner r b = Some c.
Proof. intros Hc. unfold chooseUpToCorner. by rewrite Hc. Qed.

Lemma chooseUpToCorner_block r b c :
  findWinningMove b AI = None → findWinningMove b PLAYER = Some c →
  chooseUpToCorner r b = Some c.
Proof. intros Hn Hc. unfold chooseUpToCorner. by rewrite Hn, Hc. Qed.

Lemma aiMove_chosen r s c :
  gameActive s = true → chooseUpToCorner r (boardState s) = Some c →
  aiMove r s = applyAiMove c s.
Proof. intros Hg Hc. unfold aiMove. by rewrite Hg, Hc. Qed.

Lemma checkWinner_after_line b i m l :
  checkWinner b = None → l ∈ winConditions →
  completeLine (<[i := m]> b) m l →
  checkWinner (<[i := m]> b) = Some (Winner m).
Proof.
  intros Hnone Hl Hc.
  destruct (checkWinner (<[i := m]> b)) as [[m' |] |] eqn:E.
  - by apply place_winner in E as ->.
  - apply checkWinner_Draw in E as [E _].
    eapply checkCombos_None in E; [| done]. destruct E. by exists m.
  - apply checkWinner_None in E as [E _].
    eapply checkCombos_None in E; [| done]. destruct E. by exists m.
Qed.

(** ** The AI wins and blocks *)

(** X4.  If the game is on, nobody has won yet and some combination holds
    two marks of the AI and one [Empty] cell, then [aiMove] wins at once:
    afterwards [checkWinner] reports the AI, the game is over with both
    flags cleared, the page shows the defeat and the completed combination
    is highlighted. *)
Theorem aiMove_takes_win (r : Random) (s : State) :
  gameActive s = true → checkWinner (boardState s) = None →
  winnable (boardState s) AI →
  checkWinner (boardState (aiMove r s).1) = Some (Winner AI)
  ∧ gameActive (aiMove r s).1 = false
  ∧ isProcessing (aiMove r s).1 = false
  ∧ ShowStatus YouLose ∈ (aiMove r s).2
  ∧ ∃ l, HighlightWin l ∈ (aiMove r s).2
         ∧ completeLine (boardState (aiMove r s).1) AI l.
Proof.
  intros Hg Hnone [c Hc]%winnable_findWinningMove.
  rewrite (aiMove_chosen r s c) by (by try apply chooseUpToCorner_win).
  destruct (findWinningMove_line _ _ _ Hc) as (l & Hl & Hline).
  pose proof (checkWinner_after_line _ _ _ _ Hnone Hl Hline) as Hw.
  rewrite applyAiMove_state, applyAiMove_events_full by done.
  cbn [boardState gameActive isProcessing]. unfold endsGame. rewrite Hw.
  rewrite !bool_decide_eq_true_2 by done. cbn [orb negb].
  split_and!; try done.
  - right. left.
  - destruct (highlightWinningCells_line (<[c := AI]> (boardState s)) AI Hw)
      as (l' & Hc' & ->).
    exists l'. split; [| done]. right. right. left.
Qed.

Lemma aiMove_takes_win_witness :
  winnable [O; Empty; O; Empty; X; Empty; Empty; X; X] AI
  ∧ checkWinner
      (boardState
         (aiMove randomZero
            {| boardState := [O; Empty; O; Empty; X; Empty; Empty; X; X];
               gameActive := true; isProcessing := true |}).1)
    = Some (Winner AI).
Proof.
  assert (winnable [O; Empty; O; Empty; X; Empty; Empty; X; X] AI) as Hw.
  { exists (0, 1, 2). split; [apply list_elem_of_In; cbn; tauto |].
    exists 1. split_and!; [discriminate | reflexivity |]. right. left. by split_and!. }
  split; [exact Hw |].
  apply (aiMove_takes_win randomZero
           {| boardState := [O; Empty; O; Empty; X; Empty; Empty; X; X];
              gameActive := true; isProcessing := true |});
    [reflexivity | reflexivity | exact Hw].
Defined.

(** X5.  If the AI cannot win at once and the player threatens (some
    combination holds two marks of the player and one [Empty] cell), then
    [aiMove] marks the cell [c] that [findWinningMove] reports for the
    player; every combination that the player could complete at [c] is
    thereby blocked. *)
Theorem aiMove_blocks (r : Random) (s : State) (c : nat) :
  gameActive s = true →
  findWinningMove (boardState s) AI = None →
  findWinningMove (boardState s) PLAYER = Some c →
  boardState (aiMove r s).1 = <[c := AI]> (boardState s)
  ∧ boardState (aiMove r s).1 !! c = Some AI
  ∧ ∀ l, completes (boardState s) PLAYER l c →
         ¬ completable (boardState (aiMove r s).1) PLAYER l.
Proof.
  intros Hg Hn Hc.
  rewrite (aiMove_chosen r s c) by (by try apply chooseUpToCorner_block).
  rewrite applyAiMove_board.
  pose proof (findWinningMove_blank _ _ _ Hc) as Hblank.
  assert (<[c := AI]> (boardState s) !! c = Some AI) as Hnew.
  { apply list_lookup_insert_eq, lookup_lt_is_Some_1. by eexists. }
  split_and!; [done | done |].
  intros [[a b'] c'] (_ & _ & Hl) [e (_ & He & Hl')].
  assert (∀ j, <[c := AI]> (boardState s) !! j = Some PLAYER →
               boardState s !! j = Some PLAYER) as Hold.
  { intros j Hj. apply list_lookup_insert_Some in Hj as [(_ & ? & _) | [_ Hj]]; done. }
  assert (∀ j, <[c := AI]> (boardState s) !! j = Some Empty →
               boardState s !! j = Some Empty) as Hold'.
  { intros j Hj. apply list_lookup_insert_Some in Hj as [(_ & ? & _) | [_ Hj]]; done. }
  assert (e ≠ c) as Hec by (intros ->; unfold AI in *; congruence).
  apply Hold' in He.
  destruct Hl as [(-> & Hb & Hc') | [(-> & Ha & Hc') | (-> & Ha & Hb)]];
    destruct Hl' as [(-> & Hb2 & Hc2) | [(-> & Ha2 & Hc2) | (-> & Ha2 & Hb2)]];
    try done; try apply Hold in Ha2; try apply Hold in Hb2; try apply Hold in Hc2;
    unfold PLAYER, AI in *; congruence.
Qed.

Lemma aiMove_blocks_witness :
  boardState
    (aiMove randomZero
       {| boardState := [X; O; X; O; X; O; Empty; Empty; O];
          gameActive := true; isProcessing := true |}).1
  = [X; O; X; O; X; O; O; Empty; O].
Proof.
  apply (aiMove_blocks randomZero
           {| boardState := [X; O; X; O; X; O; Empty; Empty; O];
              gameActive := true; isProcessing := true |} 6);
    reflexivity.
Defined.

(** ** What a call changes on the board *)

Lemma aiMove_board_cases r s :
  boardState (aiMove r s).1 = boardState s
  ∨ ∃ c, gameActive s = true ∧ boardState s !! c = Some Empty
         ∧ boardState (aiMove r s).1 = <[c := AI]> (boardState s).
Proof.
  destruct (gameActive s) eqn:Hg; [| left; by rewrite aiMove_not_active].
  destruct (decide (Empty ∈ boardState s)) as [Hin | Hnin].
  - right. destruct (aiMove_plays r s Hg Hin) as (c & Hc & ->).
    exists c. split_and!; [done | apply Hc | apply applyAiMove_board].
  - left. rewrite aiMove_full by done. case_bool_decide; [| done].
    by rewrite finishGame_state.
Qed.

Lemma timerCallback_board r s :
  boardState (timerCallback r s).1 = boardState (aiMove r s).1.
Proof. unfold timerCallback. by destruct (aiMove r s). Qed.

Lemma handlePlayerMove_board_cases index s :
  handlePlayerMove index s = (s, [])
  ∨ (gameActive s = true ∧ isProcessing s = false
     ∧ cellAt (boardState s) index = Some Empty
     ∧ boardState s !! Z.to_nat index = Some Empty
     ∧ boardState (handlePlayerMove index s).1
       = <[Z.to_nat index := PLAYER]> (boardState s)).
Proof.
  destruct (gameActive s) eqn:Hg;
    [| left; apply handlePlayerMove_guard; by left].
  destruct (isProcessing s) eqn:Hp;
    [left; apply handlePlayerMove_guard; right; by left |].
  destruct (decide (cellAt (boardState s) index = Some Empty)) as [Hc | Hc];
    [| left; apply handlePlayerMove_guard; right; by right].
  right. destruct (handlePlayerMove_accepted index s Hg Hp Hc) as [-> _].
  split_and!; try done. by apply cellAt_blank.
Qed.

Lemma run_board_cases c s :
  c ≠ Reset →
  boardState (run c s).1 = boardState s
  ∨ ∃ i m, m ≠ Empty ∧ boardState s !! i = Some Empty
           ∧ boardState (run c s).1 = <[i := m]> (boardState s).
Proof.
  destruct c as [index | r |]; [| | done]; intros _; cbn [run].
  - destruct (handlePlayerMove_board_cases index s) as [-> | (_ & _ & _ & Hb & Hs)];
      [by left |].
    right. by exists (Z.to_nat index), PLAYER.
  - rewrite timerCallback_board.
    destruct (aiMove_board_cases r s) as [-> | (c & _ & Hb & Hs)]; [by left |].
    right. by exists c, AI.
Qed.

(** X6.  A click or an AI move never overwrites or erases a mark: a cell
    that holds ['X'] or ['O'] holds the same mark after [handlePlayerMove],
    after [aiMove] and after the timer callback, in any state, and the
    board keeps its length.  Only [resetGame] clears cells. *)
Theorem moves_keep_marks (c : Call) (s : State) (i : nat) (m : Mark) :
  c ≠ Reset → boardState s !! i = Some m → m ≠ Empty →
  boardState (run c s).1 !! i = Some m
  ∧ length (boardState (run c s).1) = length (boardState s).
Proof.
  intros Hc Hi Hm.
  destruct (run_board_cases c s Hc) as [-> | (j & m' & _ & Hj & ->)]; [done |].
  rewrite length_insert. split; [| done].
  rewrite list_lookup_insert_ne; [done | congruence].
Qed.

Lemma moves_keep_marks_witness :
  boardState (run (AgentMove randomZero) centreTakenState).1 !! 4 = Some X
  ∧ length (boardState (run (AgentMove randomZero) centreTakenState).1)
    = length (boardState centreTakenState).
Proof.
  apply (moves_keep_marks (AgentMove randomZero) centreTakenState 4 X);
    [discriminate | reflexivity | discriminate].
Defined.

(** X7.  A call other than [resetGame] marks at most one cell, and only an
    [Empty] one: either the board is unchanged, or exactly one [Empty] cell
    has received ['X'] or ['O'], so that the number of [Empty] cells has
    dropped by one. *)
Theorem moves_mark_one_cell (c : Call) (s : State) :
  c ≠ Reset →
  boardState (run c s).1 = boardState s
  ∨ ∃ i m, m ≠ Empty ∧ boardState s !! i = Some Empty
           ∧ boardState (run c s).1 = <[i := m]> (boardState s)
           ∧ S (countMark Empty (boardState (run c s).1))
             = countMark Empty (boardState s).
Proof.
  intros Hc. destruct (run_board_cases c s Hc) as [-> | (i & m & Hm & Hi & Hs)];
    [by left |].
  right. exists i, m. split_and!; try done.
  rewrite Hs. by apply countMark_place.
Qed.

Lemma moves_mark_one_cell_witness :
  boardState (run (PlayerMove 4) initialState).1 = boardState initialState
  ∨ ∃ i m, m ≠ Empty ∧ boardState initialState !! i = Some Empty
           ∧ boardState (run (PlayerMove 4) initialState).1
             = <[i := m]> (boardState initialState)
           ∧ S (countMark Empty (boardState (run (PlayerMove 4) initialState).1))
             = countMark Empty (boardState initialState).
Proof. apply (moves_mark_one_cell (PlayerMove 4) initialState). discriminate. Defined.

(** ** Scheduling the AI *)

Lemma SetTimeout_not_highlight b m d : SetTimeout d ∉ highlightWinningCells b m.
Proof. by intros [l Hl]%highlightWinningCellsIn_only. Qed.

Lemma handlePlayerMove_SetTimeout index s :
  SetTimeout THINK_DELAY ∈ (handlePlayerMove index s).2 ↔
  isProcessing s = false ∧ isProcessing (handlePlayerMove index s).1 = true.
Proof.
  destruct (handlePlayerMove_board_cases index s) as [-> | (Hg & Hp & Hc & _ & _)].
  - cbn [fst snd]. split; [by intros ?%elem_of_nil | intros [? ?]; congruence].
  - destruct (handlePlayerMove_accepted index s Hg Hp Hc) as [-> _].
    rewrite handlePlayerMove_accepted_events by done.
    cbn [isProcessing]. unfold endsGame.
    repeat case_bool_decide; cbn [orb negb]; split.
    all: try (by intros [_ ?]).
    all: try (intros _; split; [done | done]).
    all: try (intros _; right; right; left).
    all: intros Hin; exfalso.
    all: repeat (apply elem_of_cons in Hin as [Hin | Hin]; [discriminate |]).
    all: first [by apply elem_of_nil in Hin | by apply SetTimeout_not_highlight in Hin].
Qed.

(** X8.  [handlePlayerMove] sets the timer for the AI exactly when it raises
    [isProcessing]: the event [setTimeout(..., THINK_DELAY)] is among its
    effects if and only if [isProcessing] was false before the call and is
    true after it. *)
Theorem handlePlayerMove_schedules (index : Z) (s : State) :
  SetTimeout THINK_DELAY ∈ (handlePlayerMove index s).2 ↔
  isProcessing s = false ∧ isProcessing (handlePlayerMove index s).1 = true.
Proof. apply handlePlayerMove_SetTimeout. Qed.



(** ** Reachable states: the AI always has a cell *)

Lemma aiMove_places_reachable r s :
  reachable s → gameActive s = true →
  Empty ∈ boardState s
  ∧ ∃ c, boardState s !! c = Some Empty
         ∧ aiMove r s = applyAiMove c s
         ∧ boardState (aiMove r s).1 = <[c := AI]> (boardState s).
Proof.
  intros (_ & Hact & _)%reachable_invariant Hg.
  pose proof (Hact Hg) as [_ Hin]%checkWinner_None. split; [done |].
  destruct (aiMove_plays r s Hg Hin) as (c & Hc & ->).
  exists c. rewrite applyAiMove_board. split_and!; try done. apply Hc.
Qed.

(** X10.  In every state that the calls can produce from the initial one,
    an active game has an [Empty] cell, so that [aiMove] never reaches its
    branch for the full board: it marks exactly one cell that was [Empty].
    Equivalently, a full board is always a finished game. *)
Theorem reachable_aiMove_places (r : Random) (s : State) :
  reachable s → gameActive s = true →
  Empty ∈ boardState s
  ∧ ∃ c, boardState s !! c = Some Empty
         ∧ boardState (aiMove r s).1 = <[c := AI]> (boardState s)
         ∧ S (countMark Empty (boardState (aiMove r s).1))
           = countMark Empty (boardState s).
Proof.
  intros Hs Hg.
  destruct (aiMove_places_reachable r s Hs Hg) as (Hin & c & Hb & _ & Hboard).
  split; [done |]. exists c. split_and!; try done.
  rewrite Hboard. by apply countMark_place.
Qed.

Lemma reachable_centreTakenState : reachable centreTakenState.
Proof. apply (reachable_run (PlayerMove 4)), reachable_init. Qed.

Lemma reachable_aiMove_places_witness :
  Empty ∈ boardState centreTakenState
  ∧ ∃ c, boardState centreTakenState !! c = Some Empty
         ∧ boardState (aiMove randomZero centreTakenState).1
           = <[c := AI]> (boardState centreTakenState)
         ∧ S (countMark Empty (boardState (aiMove randomZero centreTakenState).1))
           = countMark Empty (boardState centreTakenState).
Proof.
  apply (reachable_aiMove_places randomZero centreTakenState);
    [apply reachable_centreTakenState | reflexivity].
Defined.

(** ** The end of the game is announced *)

Lemma timerCallback_parts r s :
  (timerCallback r s).2 = (aiMove r s).2
  ∧ gameActive (timerCallback r s).1 = gameActive (aiMove r s).1
  ∧ isProcessing (timerCallback r s).1 = false.
Proof. unfold timerCallback. by destruct (aiMove r s). Qed.

Lemma endsGame_true m b :
  endsGame m b = true →
  checkWinner b = Some (Winner m) ∨ checkWinner b = Some Draw.
Proof.
  unfold endsGame. intros [H | H]%orb_true_iff; apply bool_decide_eq_true in H; auto.
Qed.

(** X11.  Whenever a call ends the game in a reachable state, the text it
    shows is the outcome that [checkWinner] reports on the final board: a
    win of the player with "You Win", a win of the AI with "You Lose", a
    draw with "It's a Draw"; [isProcessing] is cleared.  A click never ends
    the game with a win of the AI, and the AI never with a win of the
    player. *)
Theorem game_end_announced (c : Call) (s : State) :
  reachable s → gameActive s = true → gameActive (run c s).1 = false →
  isProcessing (run c s).1 = false
  ∧ ((checkWinner (boardState (run c s).1) = Some (Winner PLAYER)
      ∧ ShowStatus YouWin ∈ (run c s).2 ∧ ∃ index, c = PlayerMove index)
     ∨ (checkWinner (boardState (run c s).1) = Some (Winner AI)
        ∧ ShowStatus YouLose ∈ (run c s).2 ∧ ∃ r, c = AgentMove r)
     ∨ (checkWinner (boardState (run c s).1) = Some Draw
        ∧ ShowStatus ItsADraw ∈ (run c s).2)).
Proof.
  intros Hs Hg Hend. destruct c as [index | r |]; cbn [run] in *; [| | done].
  - destruct (handlePlayerMove_board_cases index s) as [Hrej | (_ & Hp & Hc & _ & _)].
    { rewrite Hrej in Hend. cbn in Hend. congruence. }
    destruct (handlePlayerMove_accepted index s Hg Hp Hc) as [Hst _].
    rewrite handlePlayerMove_accepted_events by done.
    rewrite Hst in *. cbn [boardState gameActive isProcessing] in *.
    apply negb_false_iff in Hend. rewrite Hend. split; [done |].
    apply endsGame_true in Hend as [Hw | Hd].
    + left. rewrite Hw, bool_decide_eq_true_2 by done.
      split_and!; [done | right; left | by eexists].
    + right. right. rewrite Hd.
      rewrite bool_decide_eq_false_2, bool_decide_eq_true_2 by done.
      split; [done | right; left].
  - destruct (timerCallback_parts r s) as (-> & Hga & ->). split; [done |].
    rewrite Hga in Hend. rewrite timerCallback_board.
    destruct (reachable_invariant s Hs) as (_ & Hact & _).
    pose proof (Hact Hg) as [_ Hin]%checkWinner_None.
    destruct (aiMove_plays r s Hg Hin) as (c & _ & Heq). rewrite Heq in *.
    rewrite applyAiMove_events_full. rewrite applyAiMove_state in * by done.
    cbn [boardState gameActive] in *.
    apply negb_false_iff, endsGame_true in Hend as [Hw | Hd].
    + right. left. rewrite Hw, bool_decide_eq_true_2 by done.
      split_and!; [done | right; left | by eexists].
    + right. right. rewrite Hd.
      rewrite bool_decide_eq_false_2, bool_decide_eq_true_2 by done.
      split; [done | right; left].
Qed.

Lemma played_threatenedState : played threatenedState.
Proof.
  unfold threatenedState.
  apply played_player; [| reflexivity].
  apply played_agent; [| reflexivity].
  apply played_player; [| reflexivity].
  apply played_agent; [| reflexivity].
  apply played_player; [| reflexivity].
  apply played_init.
Qed.

Lemma game_end_announced_witness :
  isProcessing (run (AgentMove randomZero) threatenedState).1 = false
  ∧ ((checkWinner (boardState (run (AgentMove randomZero) threatenedState).1)
      = Some (Winner PLAYER)
      ∧ ShowStatus YouWin ∈ (run (AgentMove randomZero) threatenedState).2
      ∧ ∃ index, AgentMove randomZero = PlayerMove index)
     ∨ (checkWinner (boardState (run (AgentMove randomZero) threatenedState).1)
        = Some (Winner AI)
        ∧ ShowStatus YouLose ∈ (run (AgentMove randomZero) threatenedState).2
        ∧ ∃ r, AgentMove randomZero = AgentMove r)
     ∨ (checkWinner (boardState (run (AgentMove randomZero) threatenedState).1)
        = Some Draw
        ∧ ShowStatus ItsADraw ∈ (run (AgentMove randomZero) threatenedState).2)).
Proof.
  apply (game_end_announced (AgentMove randomZero) threatenedState);
    [apply played_reachable, played_threatenedState | reflexivity | reflexivity].
Defined.

(** ** Turn-by-turn play *)

Lemma timerCallback_state r s :
  (timerCallback r s).1 =
  {| boardState := boardState (aiMove r s).1;
     gameActive := gameActive (aiMove r s).1; isProcessing := false |}.
Proof. unfold timerCallback. by destruct (aiMove r s). Qed.

(** X12.  One round of play from a reachable state in which the AI is not
    pending: either the click is rejected and nothing changes; or the
    player's mark ends the game and exactly one more cell is marked; or
    player and AI each mark one cell, so that exactly two more cells are
    non-Empty, one ['X'] and one ['O']. *)
Theorem playRound_marks (index : Z) (r : Random) (s : State) :
  reachable s → isProcessing s = false →
  (handlePlayerMove index s = (s, []) ∧ playRound index r s = s)
  ∨ (gameActive (playRound index r s) = false
     ∧ playRound index r s = (handlePlayerMove index s).1
     ∧ countMark PLAYER (boardState (playRound index r s))
       = S (countMark PLAYER (boardState s))
     ∧ countMark AI (boardState (playRound index r s)) = countMark AI (boardState s)
     ∧ S (countMark Empty (boardState (playRound index r s)))
       = countMark Empty (boardState s))
  ∨ (countMark PLAYER (boardState (playRound index r s))
       = S (countMark PLAYER (boardState s))
     ∧ countMark AI (boardState (playRound index r s))
       = S (countMark AI (boardState s))
     ∧ S (S (countMark Empty (boardState (playRound index r s))))
       = countMark Empty (boardState s)).
Proof.
  intros Hs Hp. unfold playRound.
  pose proof (reachable_run (PlayerMove index) s Hs) as Hs1. cbn [run] in Hs1.
  destruct (handlePlayerMove_board_cases index s) as [Hrej | (Hg & _ & Hc & Hb & _)].
  { left. rewrite Hrej. cbn [fst]. by rewrite Hp. }
  right. destruct (handlePlayerMove_accepted index s Hg Hp Hc) as [Hst _].
  destruct (countMark_place (boardState s) (Z.to_nat index) PLAYER Hb)
    as (HX & HE & Hoth); [done |].
  assert (countMark AI (<[Z.to_nat index := PLAYER]> (boardState s))
          = countMark AI (boardState s)) as HO by (by apply Hoth).
  rewrite Hst in *. cbn [boardState gameActive isProcessing] in *.
  destruct (endsGame PLAYER _) eqn:Hends; cbn [negb] in *.
  - left. cbn [gameActive boardState]. by split_and!.
  - right. rewrite timerCallback_state. cbn [boardState].
    destruct (aiMove_places_reachable r _ Hs1) as (_ & c & Hcb & _ & ->);
      [done |].
    cbn [boardState] in *.
    destruct (countMark_place _ c AI Hcb) as (HO' & HE' & Hoth'); [done |].
    rewrite HO', (Hoth' PLAYER) by done. split_and!; lia.
Qed.

Lemma playRound_marks_witness :
  (handlePlayerMove 4 initialState = (initialState, [])
   ∧ playRound 4 randomZero initialState = initialState)
  ∨ (gameActive (playRound 4 randomZero initialState) = false
     ∧ playRound 4 randomZero initialState = (handlePlayerMove 4 initialState).1
     ∧ countMark PLAYER (boardState (playRound 4 randomZero initialState))
       = S (countMark PLAYER (boardState initialState))
     ∧ countMark AI (boardState (playRound 4 randomZero initialState))
       = countMark AI (boardState initialState)
     ∧ S (countMark Empty (boardState (playRound 4 randomZero initialState)))
       = countMark Empty (boardState initialState))
  ∨ (countMark PLAYER (boardState (playRound 4 randomZero initialState))
       = S (countMark PLAYER (boardState initialState))
     ∧ countMark AI (boardState (playRound 4 randomZero initialState))
       = S (countMark AI (boardState initialState))
     ∧ S (S (countMark Empty (boardState (playRound 4 randomZero initialState))))
       = countMark Empty (boardState initialState)).
Proof.
  apply (playRound_marks 4 randomZero initialState);
    [apply reachable_init | reflexivity].
Defined.

Lemma played_counts s :
  played s →
  (isProcessing s = true →
     gameActive s = true
     ∧ countMark PLAYER (boardState s) = S (countMark AI (boardState s)))
  ∧ (isProcessing s = false → gameActive s = true →
     countMark PLAYER (boardState s) = countMark AI (boardState s))
  ∧ (gameActive s = false →
     countMark PLAYER (boardState s) = countMark AI (boardState s)
     ∨ countMark PLAYER (boardState s) = S (countMark AI (boardState s))).
Proof.
  induction 1 as [| index s Hs IH Hp | r s Hs IH Hp].
  - split_and!; try done.
  - destruct IH as (_ & IH2 & IH3).
    destruct (handlePlayerMove_board_cases index s) as [-> | (Hg & _ & Hc & Hb & _)].
    { cbn [fst]. split_and!; [congruence | done | done]. }
    destruct (handlePlayerMove_accepted index s Hg Hp Hc) as [-> _].
    destruct (countMark_place (boardState s) (Z.to_nat index) PLAYER Hb)
      as (HX & _ & Hoth); [done |].
    cbn [boardState gameActive isProcessing].
    rewrite HX, (Hoth AI), (IH2 Hp Hg) by done.
    destruct (endsGame PLAYER _); cbn [negb]; split_and!; try done; auto.
  - destruct IH as (IH1 & _ & _). destruct (IH1 Hp) as [Hg Hcnt].
    rewrite timerCallback_state. cbn [boardState gameActive isProcessing].
    destruct (aiMove_places_reachable r s (played_reachable s Hs) Hg)
      as (_ & c & Hcb & _ & Hboard).
    destruct (countMark_place (boardState s) c AI Hcb) as (HO & _ & Hoth); [done |].
    rewrite Hboard, HO, (Hoth PLAYER), Hcnt by done.
    split_and!; [done | done | auto].
Qed.

(** X13.  In a game played in turns the marks alternate, the player
    starting: the board never holds more ['O'] than ['X'] and at most one
    more ['X'] than ['O'].  While the AI is pending the game is active and
    the player is one mark ahead; when the game is active and the AI is not
    pending, both have placed the same number of marks. *)
Theorem played_alternation (s : State) :
  played s →
  countMark AI (boardState s) ≤ countMark PLAYER (boardState s)
  ∧ countMark PLAYER (boardState s) ≤ S (countMark AI (boardState s))
  ∧ (isProcessing s = true →
       gameActive s = true
       ∧ countMark PLAYER (boardState s) = S (countMark AI (boardState s)))
  ∧ (isProcessing s = false → gameActive s = true →
       countMark PLAYER (boardState s) = countMark AI (boardState s)).
Proof.
  intros (H1 & H2 & H3)%played_counts.
  assert (countMark PLAYER (boardState s) = countMark AI (boardState s)
          ∨ countMark PLAYER (boardState s) = S (countMark AI (boardState s))) as Hc.
  { destruct (isProcessing s) eqn:Hp; [right; by apply H1 |].
    destruct (gameActive s) eqn:Hg; [left; by apply H2 | by apply H3]. }
  split_and!; [lia | lia | done | done].
Qed.

Lemma played_alternation_witness :
  countMark AI (boardState threatenedState) ≤ countMark PLAYER (boardState threatenedState)
  ∧ countMark PLAYER (boardState threatenedState)
    ≤ S (countMark AI (boardState threatenedState))
  ∧ (isProcessing threatenedState = true →
       gameActive threatenedState = true
       ∧ countMark PLAYER (boardState threatenedState)
         = S (countMark AI (boardState threatenedState)))
  ∧ (isProcessing threatenedState = false → gameActive threatenedState = true →
       countMark PLAYER (boardState threatenedState)
       = countMark AI (boardState threatenedState)).
Proof. apply (played_alternation threatenedState), played_threatenedState. Defined.

(** ** The order of the combinations *)

Lemma checkCombos_is_Some b combos :
  is_Some (checkCombos b combos) ↔ ∃ l, l ∈ combos ∧ someComplete b l.
Proof.
  split.
  - intros [m (l & [Hl Hc]%firstWith_elem & _)%checkCombos_Some]. eauto.
  - intros (l & Hl & Hc). destruct (checkCombos b combos) eqn:E; [by eexists |].
    exfalso. eapply checkCombos_None; eauto.
Qed.

(** X14.  On the board of every reachable state the winner that
    [checkWinner] finds does not depend on the order in which the winning
    combinations are listed: scanning any rearrangement of [winConditions]
    returns the same mark, or none. *)
Theorem reachable_order_irrelevant (s : State) (combos : list Combo) :
  reachable s → combos ≡ₚ winConditions →
  checkCombos (boardState s) combos = checkCombos (boardState s) winConditions.
Proof.
  intros Hs Hperm.
  destruct (checkCombos (boardState s) winConditions) as [m |] eqn:E.
  - pose proof E as (l & [Hl _]%firstWith_elem & Hc)%checkCombos_Some.
    destruct (checkCombos (boardState s) combos) as [m' |] eqn:E'.
    + apply checkCombos_Some in E' as (l' & [Hl' _]%firstWith_elem & Hc').
      rewrite Hperm in Hl'. f_equal.
      by apply (reachable_single_winner s l' l).
    + exfalso. eapply checkCombos_None in E'; [| by rewrite Hperm].
      apply E'. by exists m.
  - apply checkCombos_None. intros l Hl. rewrite Hperm in Hl.
    by eapply checkCombos_None in E.
Qed.

Lemma reachable_order_irrelevant_witness :
  checkCombos (boardState lostGameState) (reverse winConditions)
  = checkCombos (boardState lostGameState) winConditions.
Proof.
  apply (reachable_order_irrelevant lostGameState (reverse winConditions)).
  - apply played_reachable, played_lostGameState.
  - apply reverse_Permutation.
Defined.

(** ** What the random choice can reach *)

Lemma randomIndex_fraction k n (H : k < n) : randomIndex (randomFraction k n H) n = k.
Proof. unfold randomIndex. cbn. apply Nat.div_mul. lia. Qed.

Lemma random_for_element {A : Type} (xs : list A) (x : A) :
  x ∈ xs → ∃ r, xs !! randomIndex r (length xs) = Some x.
Proof.
  intros [k Hk]%list_elem_of_lookup_1.
  assert (k < length xs) as Hlt by (apply lookup_lt_is_Some_1; by eexists).
  exists (randomFraction k (length xs) Hlt). by rewrite randomIndex_fraction.
Qed.

Lemma chooseUpToCorner_random r b :
  findWinningMove b AI = None → findWinningMove b PLAYER = None →
  b !! 4 ≠ Some Empty →
  chooseUpToCorner r b =
  let corners := filter (λ i, b !! i = Some Empty) [0; 2; 6; 8] in
  if bool_decide (length corners ≠ 0)
  then corners !! randomIndex r (length corners) else None.
Proof.
  intros Hn Hp H4%isBlank_false. unfold chooseUpToCorner.
  rewrite Hn. cbn [bool_decide decide_rel]. rewrite Hp, H4.
  by rewrite !(bool_decide_eq_true_2 (None = None)) by done.
Qed.

(** X15.  The random choices of [aiMove] can reach every cell that the
    rule allows.  When the AI can neither win nor block and the centre is
    taken, every [Empty] corner is marked for some value of
    [Math.random()]; and when no corner is [Empty] either, every [Empty]
    cell is. *)
Theorem aiMove_random_reaches (s : State) (c : nat) :
  gameActive s = true →
  findWinningMove (boardState s) AI = None →
  findWinningMove (boardState s) PLAYER = None →
  boardState s !! 4 ≠ Some Empty →
  boardState s !! c = Some Empty →
  c ∈ cornerCells ∨ (∀ k, k ∈ cornerCells → boardState s !! k ≠ Some Empty) →
  ∃ r, boardState (aiMove r s).1 = <[c := AI]> (boardState s).
Proof.
  intros Hg Hn Hp H4 Hc [Hcorner | Hnone].
  - assert (c ∈ filter (λ i, boardState s !! i = Some Empty) [0; 2; 6; 8]) as Hin
      by (by apply list_elem_of_filter).
    destruct (random_for_element _ _ Hin) as [r Hr]. exists r.
    rewrite (aiMove_chosen r s c), applyAiMove_board; [done | done |].
    rewrite chooseUpToCorner_random by done. cbn zeta.
    rewrite bool_decide_eq_true_2; [done |].
    intros Hz%nil_length_inv. rewrite Hz in Hin. inversion Hin.
  - assert (c ∈ emptyIndices (boardState s)) as Hin by (by apply elem_of_emptyIndices).
    destruct (random_for_element _ _ Hin) as [r Hr]. exists r.
    assert (filter (λ i, boardState s !! i = Some Empty) [0; 2; 6; 8] = []) as Hcs.
    { destruct (filter _ _) as [| k ks] eqn:E; [done |].
      assert (k ∈ filter (λ i, boardState s !! i = Some Empty) [0; 2; 6; 8])
        as [Hk1 Hk2]%list_elem_of_filter by (rewrite E; left).
      by destruct (Hnone k). }
    unfold aiMove. rewrite Hg. cbn [negb].
    rewrite chooseUpToCorner_random by done. cbn zeta. rewrite Hcs. cbn.
    rewrite (bool_decide_eq_false_2 (length (emptyIndices (boardState s)) = 0)), Hr;
      [apply applyAiMove_board |].
    intros Hz%nil_length_inv. rewrite Hz in Hin. inversion Hin.
Qed.

Lemma aiMove_random_reaches_witness :
  ∃ r, boardState (aiMove r centreTakenState).1
       = <[8 := AI]> (boardState centreTakenState).
Proof.
  apply (aiMove_random_reaches centreTakenState 8);
    [reflexivity | reflexivity | reflexivity | discriminate | reflexivity |].
  left. apply list_elem_of_In. cbn. tauto.
Defined.

(** ** A winner holds three cells *)

Lemma countMark_lookup_pos b i m : b !! i = Some m → 0 < countMark m b.
Proof.
  intros Hi. destruct (countMark m b) eqn:E; [| lia].
  apply countMark_zero in E. destruct E. by eapply list_elem_of_lookup_2.
Qed.

Lemma countMark_three b m i j k :
  i ≠ j → j ≠ k → i ≠ k →
  b !! i = Some m → b !! j = Some m → b !! k = Some m →
  3 ≤ countMark m b.
Proof.
  intros Hij Hjk Hik Hi Hj Hk.
  assert (∃ w, w ≠ m) as [w Hw] by (destruct m; [by exists X | by exists Empty ..]).
  pose proof (countMark_insert b i m w m Hi) as H1.
  assert (<[i := w]> b !! j = Some m) as Hj1 by (by rewrite list_lookup_insert_ne).
  assert (<[i := w]> b !! k = Some m) as Hk1 by (by rewrite list_lookup_insert_ne).
  pose proof (countMark_insert _ j m w m Hj1) as H2.
  assert (<[j := w]> (<[i := w]> b) !! k = Some m) as Hk2
    by (by rewrite list_lookup_insert_ne).
  pose proof (countMark_lookup_pos _ _ _ Hk2) as H3.
  rewrite decide_True, decide_False in H1, H2 by done. lia.
Qed.

(** X16.  [checkWinner] reports a mark as the winner only if that mark is
    ['X'] or ['O'] and occupies at least three cells of the board. *)
Theorem checkWinner_three_marks (b : list Mark) (m : Mark) :
  checkWinner b = Some (Winner m) → m ≠ Empty ∧ 3 ≤ countMark m b.
Proof.
  intros (l & [Hl _]%firstWith_elem & Hc)%checkWinner_Winner%checkCombos_Some.
  pose proof (winConditions_distinct l Hl) as Hd.
  destruct l as [[a b'] c]. destruct Hd as (Hab & Hbc & Hac & _).
  destruct Hc as (Hm & Ha & Hb & Hc). split; [done |].
  by apply (countMark_three b m a b' c).
Qed.

Lemma checkWinner_three_marks_witness :
  AI ≠ Empty ∧ 3 ≤ countMark AI (boardState lostGameState).
Proof. apply (checkWinner_three_marks (boardState lostGameState) AI). reflexivity. Defined.

(** ** The list of empty cells *)

Lemma emptyIndices_shift (g : nat → nat) (b : list Mark) :
  omap (λ x, x) (imap (λ i v, if bool_decide (v = Empty) then Some (g i) else None) b)
  = g <$> emptyIndices b.
Proof.
  unfold emptyIndices. revert g. induction b as [| x b IH]; intros g; [done |].
  rewrite !imap_cons. csimpl.
  pose proof (IH (g ∘ S)) as IHg. pose proof (IH S) as IHS. unfold compose in *.
  rewrite IHg, IHS.
  case_bool_decide; csimpl; [f_equal |]; by rewrite <- list_fmap_compose.
Qed.

Lemma emptyIndices_cons x b :
  emptyIndices (x :: b) =
  (if bool_decide (x = Empty) then [0] else []) ++ (S <$> emptyIndices b).
Proof.
  unfold emptyIndices at 1. rewrite imap_cons. csimpl. unfold compose.
  rewrite (emptyIndices_shift S). by case_bool_decide.
Qed.

(** X17.  The list [emptyIndices] that [aiMove] computes holds exactly the
    indices of the [Empty] cells, in increasing order and each once; its
    length is the number of [Empty] cells. *)
Theorem emptyIndices_exact (b : list Mark) :
  (∀ i, i ∈ emptyIndices b ↔ b !! i = Some Empty)
  ∧ StronglySorted lt (emptyIndices b)
  ∧ NoDup (emptyIndices b)
  ∧ length (emptyIndices b) = countMark Empty b.
Proof.
  split; [intros i; apply elem_of_emptyIndices |].
  assert (StronglySorted lt (emptyIndices b)) as Hsorted.
  { induction b as [| x b IH]; [constructor |].
    rewrite emptyIndices_cons.
    assert (StronglySorted lt (S <$> emptyIndices b)) as HS
      by (apply (StronglySorted_fmap S lt lt); [intros ???; lia | done]).
    case_bool_decide; [| done]. constructor; [done |].
    apply Forall_fmap, Forall_true. intros ?; simpl; lia. }
  split_and!; [done | |].
  - clear -Hsorted. induction Hsorted as [| x l _ IH Hall]; constructor; [| done].
    intros Hin. eapply Forall_forall in Hall; [| done]. lia.
  - clear Hsorted. unfold countMark. induction b as [| x b IH]; [done |].
    rewrite emptyIndices_cons, length_app, length_fmap, IH, filter_cons.
    case_bool_decide; case_decide; done.
Qed.

(** ** The page mirrors the board *)

Lemma elem_of_classListAdd t t' cl : t ∈ classListAdd t' cl ↔ t = t' ∨ t ∈ cl.
Proof.
  unfold classListAdd. case_decide as Hin.
  - split; [by right | intros [-> | ?]; done].
  - rewrite elem_of_app, list_elem_of_singleton. tauto.
Qed.

Lemma elem_of_classListRemove t ts cl :
  t ∈ classListRemove ts cl ↔ (t ∉ ts) ∧ t ∈ cl.
Proof. unfold classListRemove. by rewrite list_elem_of_filter. Qed.

Lemma showsMark_sameMark m cell cell' :
  sameMark cell cell' → showsMark m cell → showsMark m cell'.
Proof.
  intros (Hd & Hc & Hh). unfold showsMark.
  destruct m; rewrite Hd, Hc, Hh; done.
Qed.

Lemma Forall2_showsMark_update b cells i cell cell' :
  Forall2 showsMark b cells → cells !! i = Some cell → sameMark cell cell' →
  Forall2 showsMark b (<[i := cell']> cells).
Proof.
  intros Hall Hi Hsame.
  destruct (Forall2_lookup_r _ _ _ _ _ Hall Hi) as (m & Hm & Hshow).
  rewrite <- (list_insert_id b i m Hm). apply Forall2_insert; [done |].
  by eapply showsMark_sameMark.
Qed.

Lemma animateCallback_shows b cells index :
  Forall2 showsMark b cells → Forall2 showsMark b (animateCallback index cells).
Proof.
  intros Hall. unfold animateCallback.
  destruct (cells !! index) as [cell |] eqn:Hi; [| done].
  eapply Forall2_showsMark_update; [done | done |].
  split_and!; [done | done |]. cbn. rewrite elem_of_classListAdd.
  split; [by intros [? | ?] | by right].
Qed.

Lemma addWinClass_shows b cells i :
  Forall2 showsMark b cells → i < length b →
  ∃ cells', addWinClass i cells = Some cells' ∧ Forall2 showsMark b cells'.
Proof.
  intros Hall Hi. unfold addWinClass.
  destruct (lookup_lt_is_Some_2 cells i) as [cell Hc];
    [by rewrite <- (Forall2_length _ _ _ Hall) |].
  rewrite Hc. eexists. split; [done |].
  eapply Forall2_showsMark_update; [done | done |].
  split_and!; [done | done |]. cbn. rewrite elem_of_classListAdd.
  split; [by intros [? | ?] | by right].
Qed.

Lemma highlightCells_shows b cells l :
  Forall2 showsMark b cells → length b = 9 → l ∈ winConditions →
  ∃ cells', highlightCells l cells = Some cells' ∧ Forall2 showsMark b cells'.
Proof.
  intros Hall Hlen Hl. pose proof (winConditions_distinct l Hl) as Hd.
  destruct l as [[a b'] c]. destruct Hd as (_ & _ & _ & Ha & Hb & Hc).
  unfold highlightCells.
  destruct (addWinClass_shows b cells a Hall) as (c1 & -> & H1); [lia |].
  destruct (addWinClass_shows b c1 b' H1) as (c2 & -> & H2); [lia |].
  apply addWinClass_shows; [done | lia].
Qed.

Lemma applyEvents_keepsMarks b cells evs :
  Forall keepsMarks evs → Forall2 showsMark b cells → length b = 9 →
  ∃ cells', applyEvents evs cells = Some cells' ∧ Forall2 showsMark b cells'.
Proof.
  intros Hevs. revert cells. induction Hevs as [| ev evs Hev _ IH]; intros cells Hall Hlen.
  - by exists cells.
  - destruct ev as [| t | l | d |]; cbn in Hev; try done; cbn [applyEvents applyEvent].
    + by apply IH.
    + destruct (highlightCells_shows b cells l Hall Hlen Hev) as (c1 & -> & H1).
      by apply IH.
    + by apply IH.
Qed.

Lemma renderMark_shows b cells i m :
  Forall2 showsMark b cells → m ≠ Empty →
  Forall2 showsMark (<[i := m]> b) (renderMark i m cells).1.
Proof.
  intros Hall Hm. unfold renderMark.
  destruct (cells !! i) as [cell |] eqn:Hi; cbn [fst].
  - apply Forall2_insert; [done |].
    unfold showsMark. destruct m; [done | |];
      (split_and!; [done | done | apply elem_of_classListAdd; by left]).
  - rewrite list_insert_ge; [done |].
    rewrite (Forall2_length _ _ _ Hall). by apply lookup_ge_None.
Qed.

Lemma clearBoardVisuals_shows cells :
  Forall2 showsMark (replicate (length cells) Empty) (clearBoardVisuals cells).
Proof.
  unfold clearBoardVisuals. induction cells as [| c cells IH]; [constructor |].
  cbn. constructor; [| done]. split_and!; [done | done |]. cbn.
  intros [Hn _]%elem_of_classListRemove. apply Hn. left.
Qed.

Lemma highlightWinningCells_keepsMarks b m :
  Forall keepsMarks (highlightWinningCells b m).
Proof.
  unfold highlightWinningCells.
  assert (∀ combos, (∀ l, l ∈ combos → l ∈ winConditions) →
                    Forall keepsMarks (highlightWinningCellsIn b m combos)) as H.
  { induction combos as [| [[a b'] c] rest IH]; intros Hsub; [constructor |].
    cbn. destruct (_ && _).
    - constructor; [| constructor]. apply Hsub. left.
    - apply IH. intros l Hl. apply Hsub. by right. }
  by apply H.
Qed.

Lemma finishGame_Draw_events s : (finishGame Draw s).2 = [ShowStatus ItsADraw].
Proof. done. Qed.

Lemma run_events_shape c s :
  (Forall keepsMarks (run c s).2 ∧ boardState (run c s).1 = boardState s)
  ∨ (∃ i m tail, m ≠ Empty ∧ (run c s).2 = RenderMark i m :: tail
                 ∧ Forall keepsMarks tail
                 ∧ boardState (run c s).1 = <[i := m]> (boardState s))
  ∨ (c = Reset ∧ (run c s).2 = [ClearBoardVisuals; ShowStatus YourTurn]
     ∧ boardState (run c s).1 = emptyBoard).
Proof.
  destruct c as [index | r |]; cbn [run].
  - destruct (handlePlayerMove_board_cases index s) as [-> | (Hg & Hp & Hc & _ & Hb)].
    { left. split; [constructor | done]. }
    right. left. exists (Z.to_nat index), PLAYER. eexists.
    rewrite handlePlayerMove_accepted_events by done.
    split_and!; [done | done | | done].
    repeat case_bool_decide; repeat constructor.
    apply highlightWinningCells_keepsMarks.
  - destruct (timerCallback_parts r s) as (-> & _ & _). rewrite timerCallback_board.
    destruct (gameActive s) eqn:Hg;
      [| left; rewrite aiMove_not_active by done; split; [constructor | done]].
    destruct (decide (Empty ∈ boardState s)) as [Hin | Hnin].
    + right. left. destruct (aiMove_plays r s Hg Hin) as (c & _ & ->).
      exists c, AI. eexists. rewrite applyAiMove_events_full, applyAiMove_board.
      split_and!; [done | done | | done].
      repeat case_bool_decide; repeat constructor.
      apply highlightWinningCells_keepsMarks.
    + left. rewrite aiMove_full by done. case_bool_decide.
      * rewrite finishGame_state, finishGame_Draw_events.
        split; [repeat constructor | done].
      * split; [constructor | done].
  - right. right. done.
Qed.

Lemma applyEvents_run c s cells :
  Forall2 showsMark (boardState s) cells → length (boardState s) = 9 →
  ∃ cells', applyEvents (run c s).2 cells = Some cells'
            ∧ Forall2 showsMark (boardState (run c s).1) cells'.
Proof.
  intros Hall Hlen.
  destruct (run_events_shape c s)
    as [[Hev ->] | [(i & m & tail & Hm & -> & Htail & ->) | (-> & -> & ->)]].
  - by apply applyEvents_keepsMarks.
  - cbn [applyEvents applyEvent]. apply applyEvents_keepsMarks; [done | |].
    + by apply renderMark_shows.
    + by rewrite length_insert.
  - cbn [applyEvents applyEvent]. eexists. split; [done |].
    pose proof (clearBoardVisuals_shows cells) as Hclear.
    by rewrite <- (Forall2_length _ _ _ Hall), Hlen in Hclear.
Qed.

Lemma displayed_reachable cells0 s cells : displayed cells0 s cells → reachable s.
Proof.
  induction 1 as [| c s cells cells' _ IH _ | index s cells _ IH];
    [constructor | by constructor | done].
Qed.

Lemma displayed_shows cells0 s cells :
  length cells0 = 9 → displayed cells0 s cells →
  Forall2 showsMark (boardState s) cells.
Proof.
  intros Hlen. induction 1 as [| c s cells cells' Hd IH Hev | index s cells Hd IH].
  - pose proof (clearBoardVisuals_shows cells0) as Hclear. by rewrite Hlen in Hclear.
  - destruct (applyEvents_run c s cells IH) as (cells'' & Hev' & Hall).
    { by eapply reachable_length, displayed_reachable. }
    congruence.
  - by apply animateCallback_shows.
Qed.

(** X18.  The page mirrors the board.  From the load of the script on a
    page of nine cells, through any sequence of clicks, AI moves, restarts
    and animation timers, the cell at every index shows the mark that
    [boardState] holds there: an [Empty] cell has no image, no attribute
    [data-mark] and not the class [has-mark]; a cell with ['X'] or ['O']
    has the class, the attribute with that mark and exactly the one image
    of that mark. *)
Theorem page_mirrors_board (cells0 : list CellView) (s : State) (cells : list CellView) :
  length cells0 = 9 → displayed cells0 s cells →
  length cells = 9
  ∧ ∀ i, i < 9 →
      ∃ m cell, boardState s !! i = Some m ∧ cells !! i = Some cell
                ∧ showsMark m cell.
Proof.
  intros Hlen Hd. pose proof (displayed_shows cells0 s cells Hlen Hd) as Hall.
  pose proof (reachable_length s (displayed_reachable _ _ _ Hd)) as Hb.
  split; [by rewrite <- (Forall2_length _ _ _ Hall) |].
  intros i Hi. destruct (lookup_lt_is_Some_2 (boardState s) i) as [m Hm]; [lia |].
  destruct (Forall2_lookup_l _ _ _ _ _ Hall Hm) as (cell & Hc & Hshow).
  by exists m, cell.
Qed.

(** X19.  On a page of nine cells no call fails on the page: in every state
    that the page can be in, the effects of a click, of the timer callback
    and of a restart find all the cells they address (no [TypeError] from
    [cells[a].classList] in [highlightWinningCells]), and lead to a state
    of the page again. *)
Theorem page_calls_succeed (cells0 : list CellView) (s : State) (cells : list CellView)
    (c : Call) :
  length cells0 = 9 → displayed cells0 s cells →
  ∃ cells', applyEvents (run c s).2 cells = Some cells'
            ∧ displayed cells0 (run c s).1 cells'.
Proof.
  intros Hlen Hd. pose proof (displayed_shows cells0 s cells Hlen Hd) as Hall.
  pose proof (reachable_length s (displayed_reachable _ _ _ Hd)) as Hb.
  destruct (applyEvents_run c s cells Hall Hb) as (cells' & Hev & _).
  exists cells'. split; [done |]. by apply displayed_call with cells.
Qed.

Lemma displayed_centreTaken : displayed blankCells centreTakenState centreTakenCells.
Proof.
  apply (displayed_call blankCells (PlayerMove 4) initialState
           (clearBoardVisuals blankCells)); [constructor | reflexivity].
Qed.

Lemma page_mirrors_board_witness :
  length centreTakenCells = 9
  ∧ ∀ i, i < 9 →
      ∃ m cell, boardState centreTakenState !! i = Some m
                ∧ centreTakenCells !! i = Some cell ∧ showsMark m cell.
Proof.
  apply (page_mirrors_board blankCells centreTakenState centreTakenCells);
    [reflexivity | apply displayed_centreTaken].
Defined.

Lemma page_calls_succeed_witness :
  ∃ cells', applyEvents (run (AgentMove randomZero) centreTakenState).2 centreTakenCells
            = Some cells'
            ∧ displayed blankCells (run (AgentMove randomZero) centreTakenState).1 cells'.
Proof.
  apply (page_calls_succeed blankCells centreTakenState centreTakenCells);
    [reflexivity | apply displayed_centreTaken].
Defined.

(** ** The highlighted cells *)

Lemma hasWin_insert cells j cell cell' i :
  cells !! j = Some cell →
  hasWin (<[j := cell']> cells) i ↔
  (i = j ∧ "win" ∈ classList cell') ∨ (i ≠ j ∧ hasWin cells i).
Proof.
  intros Hj. assert (j < length cells) as Hlt by (apply lookup_lt_is_Some_1; by eexists).
  unfold hasWin. destruct (decide (i = j)) as [-> | Hne].
  - rewrite list_lookup_insert_eq by done. split.
    + intros (c & [= <-] & Hc). by left.
    + intros [[_ Hc] | [? _]]; [by eexists | done].
  - rewrite list_lookup_insert_ne by done. split; [by right | by intros [[? _] | [_ ?]]].
Qed.

Lemma hasWin_renderMark cells j m i :
  hasWin (renderMark j m cells).1 i ↔ hasWin cells i.
Proof.
  unfold renderMark. destruct (cells !! j) as [cell |] eqn:Hj; [| done]. cbn [fst].
  rewrite (hasWin_insert cells j cell) by done. cbn [classList].
  rewrite elem_of_classListAdd. split.
  - intros [[-> [? | Hc]] | [_ ?]]; [done | by exists cell | done].
  - intros Hw. destruct (decide (i = j)) as [-> | Hne]; [| by right].
    left. split; [done |]. right. destruct Hw as (c & Hc & Hw). congruence.
Qed.

Lemma hasWin_animateCallback cells j i :
  hasWin (animateCallback j cells) i ↔ hasWin cells i.
Proof.
  unfold animateCallback. destruct (cells !! j) as [cell |] eqn:Hj; [| done].
  rewrite (hasWin_insert cells j cell) by done. cbn [classList].
  rewrite elem_of_classListAdd. split.
  - intros [[-> [? | Hc]] | [_ ?]]; [done | by exists cell | done].
  - intros Hw. destruct (decide (i = j)) as [-> | Hne]; [| by right].
    left. split; [done |]. right. destruct Hw as (c & Hc & Hw). congruence.
Qed.

Lemma hasWin_clearBoardVisuals cells i : ¬ hasWin (clearBoardVisuals cells) i.
Proof.
  unfold hasWin, clearBoardVisuals. intros (cell & Hc & Hw).
  rewrite list_lookup_fmap in Hc. destruct (cells !! i) as [c |]; [| done].
  cbn in Hc. injection Hc as <-. cbn in Hw.
  apply elem_of_classListRemove in Hw as [Hn _]. apply Hn. right. left.
Qed.

Lemma hasWin_addWinClass cells a cells' i :
  addWinClass a cells = Some cells' →
  hasWin cells' i ↔ i = a ∨ hasWin cells i.
Proof.
  unfold addWinClass. destruct (cells !! a) as [cell |] eqn:Ha; [| done].
  intros [= <-]. rewrite (hasWin_insert cells a cell) by done. cbn [classList].
  rewrite elem_of_classListAdd. split.
  - intros [[-> _] | [_ ?]]; [by left | by right].
  - intros [-> | Hw]; [left; split; [done | by left] |].
    destruct (decide (i = a)) as [-> | Hne]; [| by right].
    left. split; [done | by left].
Qed.

Lemma hasWin_highlightCells cells l cells' i :
  highlightCells l cells = Some cells' →
  hasWin cells' i ↔ i ∈ lineOf l ∨ hasWin cells i.
Proof.
  destruct l as [[a b'] c]. unfold highlightCells, lineOf.
  destruct (addWinClass a cells) as [c1 |] eqn:H1; [| done].
  destruct (addWinClass b' c1) as [c2 |] eqn:H2; [| done]. intros H3.
  rewrite (hasWin_addWinClass _ _ _ i H3), (hasWin_addWinClass _ _ _ i H2),
    (hasWin_addWinClass _ _ _ i H1).
  rewrite !elem_of_cons, elem_of_nil. tauto.
Qed.

Lemma applyEvents_statusOnly evs cells :
  Forall statusOnly evs → applyEvents evs cells = Some cells.
Proof.
  induction 1 as [| ev evs Hev _ IH]; [done |].
  destruct ev; cbn in Hev; try done; by cbn.
Qed.

Lemma placed_hasWin b j m cells cells' t tail0 i :
  m ≠ Empty → (∀ k, ¬ hasWin cells k) → Forall statusOnly tail0 →
  applyEvents
    (RenderMark j m ::
       (if bool_decide (checkWinner (<[j := m]> b) = Some (Winner m))
        then ShowStatus t :: highlightWinningCells (<[j := m]> b) m
        else if bool_decide (checkWinner (<[j := m]> b) = Some Draw)
             then [ShowStatus ItsADraw]
             else tail0))
    cells = Some cells' →
  hasWin cells' i ↔
  ∃ l, checkWinner (<[j := m]> b) = Some (Winner m)
       ∧ firstWith (someComplete (<[j := m]> b)) winConditions l
       ∧ i ∈ lineOf l.
Proof.
  intros Hm Hno Htail. cbn [applyEvents applyEvent].
  assert (∀ k, ¬ hasWin (renderMark j m cells).1 k) as Hno'
    by (intros k Hk%hasWin_renderMark; by eapply Hno).
  case_bool_decide as Hw; [| case_bool_decide as Hd].
  - pose proof Hw as Hc%checkWinner_Winner.
    destruct (highlightWinningCellsIn_winner _ _ _ Hc) as (l & Hf & _ & Hh).
    unfold highlightWinningCells. rewrite Hh. cbn [applyEvents applyEvent].
    destruct (highlightCells l _) as [c1 |] eqn:Hl; [| done]. intros [= <-].
    rewrite (hasWin_highlightCells _ _ _ i Hl). split.
    + intros [Hi | Hi]; [by exists l | by destruct (Hno' i)].
    + intros (l' & _ & Hf' & Hi). left.
      by rewrite (firstWith_unique _ _ _ _ Hf Hf').
  - cbn. intros [= <-]. split; [intros Hi; by destruct (Hno' i) |].
    intros (l & Hw' & _). congruence.
  - rewrite applyEvents_statusOnly by done. intros [= <-].
    split; [intros Hi; by destruct (Hno' i) | by intros (l & Hw' & _)].
Qed.

Lemma winningCell_placed s' b j m i :
  checkWinner b = None →
  boardState s' = <[j := m]> b → gameActive s' = negb (endsGame m (<[j := m]> b)) →
  winningCell s' i ↔
  ∃ l, checkWinner (<[j := m]> b) = Some (Winner m)
       ∧ firstWith (someComplete (<[j := m]> b)) winConditions l
       ∧ i ∈ lineOf l.
Proof.
  intros Hnone Hb Hg. unfold winningCell. rewrite Hb, Hg. split.
  - intros (_ & m' & l & Hw & Hf & Hi).
    pose proof (place_winner b j m Hnone m' Hw) as ->. by exists l.
  - intros (l & Hw & Hf & Hi). split; [| by exists m, l].
    unfold endsGame. by rewrite Hw, bool_decide_eq_true_2.
Qed.

Lemma displayed_hasWin cells0 s cells i :
  length cells0 = 9 → displayed cells0 s cells →
  hasWin cells i ↔ winningCell s i.
Proof.
  intros Hlen Hd. revert i.
  induction Hd as [| c s cells cells' Hd IH Hev | index s cells Hd IH]; intros i.
  - split; [by intros ?%hasWin_clearBoardVisuals | by intros [? _]].
  - pose proof (displayed_reachable _ _ _ Hd) as Hs.
    pose proof (reachable_invariant s Hs) as (_ & Hact & _).
    assert (gameActive s = true → ∀ k, ¬ hasWin cells k) as Hno.
    { intros Hg k [Hk _]%IH. congruence. }
    destruct c as [index | r |]; cbn [run] in *.
    + destruct (handlePlayerMove_board_cases index s)
        as [Hrej | (Hg & Hp & Hc & _ & _)].
      { rewrite Hrej in *. cbn in Hev. injection Hev as <-. apply IH. }
      rewrite handlePlayerMove_accepted_events in Hev by done.
      destruct (handlePlayerMove_accepted index s Hg Hp Hc) as [Hst _].
      assert (PLAYER ≠ Empty) as HmP by discriminate.
      assert (Forall statusOnly [ShowStatus AIsTurn; SetTimeout THINK_DELAY]) as Htl
        by (repeat constructor).
      rewrite (placed_hasWin _ _ _ _ _ _ _ i HmP (Hno Hg) Htl Hev).
      symmetry. apply winningCell_placed; [by apply Hact | by rewrite Hst ..].
    + destruct (timerCallback_parts r s) as (Hev' & Hga & _). rewrite Hev' in Hev.
      destruct (gameActive s) eqn:Hg.
      * destruct (aiMove_places_reachable r s Hs Hg) as (_ & c & _ & Heq & Hboard).
        rewrite Heq, applyAiMove_events_full in Hev.
        assert (AI ≠ Empty) as HmA by discriminate.
        assert (Forall statusOnly [ShowStatus YourTurn]) as Htl by (repeat constructor).
        rewrite (placed_hasWin _ _ _ _ _ _ _ i HmA (Hno eq_refl) Htl Hev).
        symmetry. apply winningCell_placed; [by apply Hact | |].
        -- by rewrite timerCallback_board.
        -- by rewrite Hga, Heq, applyAiMove_state.
      * rewrite aiMove_not_active in Hev, Hga by done. cbn in Hev, Hga.
        injection Hev as <-. rewrite IH. unfold winningCell.
        by rewrite Hga, timerCallback_board, aiMove_not_active.
    + cbn in Hev. injection Hev as <-.
      split; [by intros ?%hasWin_clearBoardVisuals | by intros [? _]].
  - rewrite hasWin_animateCallback. apply IH.
Qed.

(** X20.  The class [win] marks exactly the winning combination.  On a page
    of nine cells, in every state of the page, a cell carries the class
    [win] if and only if the game is over with a winner and the cell belongs
    to the first complete combination, the one that decided [checkWinner];
    while the game is on, after a draw and after a restart no cell carries
    it. *)
Theorem page_highlights_winner (cells0 : list CellView) (s : State)
    (cells : list CellView) (i : nat) :
  length cells0 = 9 → displayed cells0 s cells →
  (hasWin cells i ↔ winningCell s i)
  ∧ (gameActive s = true ∨ checkWinner (boardState s) = Some Draw →
     ¬ hasWin cells i).
Proof.
  intros Hlen Hd. pose proof (displayed_hasWin cells0 s cells i Hlen Hd) as Hiff.
  split; [done |]. rewrite Hiff. intros [Hg | Hdraw] (Hg' & m & l & Hw & _); congruence.
Qed.

Lemma playCalls_displayed cells0 cs s cells s' cells' :
  displayed cells0 s cells → playCalls cs s cells = Some (s', cells') →
  displayed cells0 s' cells'.
Proof.
  revert s cells. induction cs as [| c cs IH]; intros s cells Hd; cbn.
  - by intros [= <- <-].
  - destruct (applyEvents (run c s).2 cells) as [c1 |] eqn:Hev; [| done].
    apply IH. by apply displayed_call with cells.
Qed.

Lemma displayed_lostGame : displayed blankCells lostGameState lostGameCells.
Proof.
  apply (playCalls_displayed blankCells lostGameCalls initialState
           (clearBoardVisuals blankCells)); [constructor | vm_compute; reflexivity].
Qed.

Lemma page_highlights_winner_witness :
  (hasWin lostGameCells 6 ↔ winningCell lostGameState 6)
  ∧ (gameActive lostGameState = true
     ∨ checkWinner (boardState lostGameState) = Some Draw →
     ¬ hasWin lostGameCells 6).
Proof.
  apply (page_highlights_winner blankCells lostGameState lostGameCells 6);
    [reflexivity | apply displayed_lostGame].
Defined.

(** The cells 2, 4 and 6 are highlighted at the end of the lost game, and
    cell 0 is not. *)
Lemma lostGame_highlight :
  hasWin lostGameCells 2 ∧ hasWin lostGameCells 4 ∧ hasWin lostGameCells 6
  ∧ ¬ hasWin lostGameCells 0.
Proof.
  unfold hasWin, lostGameCells. split_and!;
    try (eexists; split; [reflexivity | apply list_elem_of_In; cbn; auto 10]).
  intros (cell & [= <-] & Hw%list_elem_of_In). cbn in Hw. intuition discriminate.
Qed.

(** ** A restart clears the page *)

Lemma classListRemove_add ts t cl :
  t ∈ ts → classListRemove ts (classListAdd t cl) = classListRemove ts cl.
Proof.
  intros Ht. unfold classListRemove, classListAdd. case_decide; [done |].
  rewrite filter_app, filter_cons, decide_False by (by intros ?).
  by rewrite filter_nil, app_nil_r.
Qed.

Lemma classListRemove_idemp ts cl :
  classListRemove ts (classListRemove ts cl) = classListRemove ts cl.
Proof.
  unfold classListRemove. induction cl as [| t cl IH]; [done |].
  rewrite filter_cons. case_decide; [| done].
  rewrite filter_cons, decide_True by done. by rewrite IH.
Qed.

Lemma clearBoardVisuals_insert cells i cell cell' :
  cells !! i = Some cell →
  classListRemove ["has-mark"; "win"; "marked-animated"] (classList cell')
  = classListRemove ["has-mark"; "win"; "marked-animated"] (classList cell) →
  clearBoardVisuals (<[i := cell']> cells) = clearBoardVisuals cells.
Proof.
  intros Hi Hcl. unfold clearBoardVisuals. rewrite list_fmap_insert.
  apply list_insert_id. by rewrite list_lookup_fmap, Hi, Hcl.
Qed.

Lemma clearBoardVisuals_renderMark cells i m :
  clearBoardVisuals (renderMark i m cells).1 = clearBoardVisuals cells.
Proof.
  unfold renderMark. destruct (cells !! i) as [cell |] eqn:Hi; [| done].
  cbn [fst]. eapply clearBoardVisuals_insert; [done |]. cbn [classList].
  apply classListRemove_add. left.
Qed.

Lemma clearBoardVisuals_animateCallback cells i :
  clearBoardVisuals (animateCallback i cells) = clearBoardVisuals cells.
Proof.
  unfold animateCallback. destruct (cells !! i) as [cell |] eqn:Hi; [| done].
  eapply clearBoardVisuals_insert; [done |]. cbn [classList].
  apply classListRemove_add. right. right. left.
Qed.

Lemma clearBoardVisuals_addWinClass cells i cells' :
  addWinClass i cells = Some cells' →
  clearBoardVisuals cells' = clearBoardVisuals cells.
Proof.
  unfold addWinClass. destruct (cells !! i) as [cell |] eqn:Hi; [| done].
  intros [= <-]. eapply clearBoardVisuals_insert; [done |]. cbn [classList].
  apply classListRemove_add. right. left.
Qed.

Lemma clearBoardVisuals_idemp cells :
  clearBoardVisuals (clearBoardVisuals cells) = clearBoardVisuals cells.
Proof.
  unfold clearBoardVisuals. rewrite <- list_fmap_compose.
  apply list_fmap_ext. intros i c _. unfold compose. cbn. f_equal.
  apply classListRemove_idemp.
Qed.

Lemma clearBoardVisuals_applyEvents evs cells cells' :
  applyEvents evs cells = Some cells' →
  clearBoardVisuals cells' = clearBoardVisuals cells.
Proof.
  revert cells. induction evs as [| ev evs IH]; intros cells; cbn.
  - by intros [= <-].
  - destruct (applyEvent ev cells) as [c1 |] eqn:Hev; [| done].
    intros Hrest%IH. rewrite Hrest. clear Hrest IH.
    destruct ev as [i m | t | [[a b'] c] | d |]; cbn in Hev.
    + injection Hev as <-. apply clearBoardVisuals_renderMark.
    + by injection Hev as <-.
    + destruct (addWinClass a cells) as [c2 |] eqn:H1; [| done].
      destruct (addWinClass b' c2) as [c3 |] eqn:H2; [| done].
      apply clearBoardVisuals_addWinClass in Hev, H2, H1. congruence.
    + by injection Hev as <-.
    + injection Hev as <-. apply clearBoardVisuals_idemp.
Qed.

(** X21.  A restart leaves no residue on the page.  Whatever the game has
    drawn (marks, highlights, animation classes), [clearBoardVisuals]
    brings the cells back to exactly what they were after the load of the
    script: every state of the page is cleared to the cleared initial
    cells, and [clearBoardVisuals] applied twice is [clearBoardVisuals]. *)
Theorem restart_restores_page (cells0 : list CellView) (s : State)
    (cells : list CellView) :
  displayed cells0 s cells →
  clearBoardVisuals cells = clearBoardVisuals cells0
  ∧ applyEvents (run Reset s).2 cells = Some (clearBoardVisuals cells0).
Proof.
  intros Hd.
  assert (clearBoardVisuals cells = clearBoardVisuals cells0) as Hclear.
  { induction Hd as [| c s cells cells' _ IH Hev | index s cells _ IH].
    - apply clearBoardVisuals_idemp.
    - by rewrite (clearBoardVisuals_applyEvents _ _ _ Hev).
    - by rewrite clearBoardVisuals_animateCallback. }
  split; [done |]. cbn. by rewrite Hclear.
Qed.

Lemma restart_restores_page_witness :
  clearBoardVisuals lostGameCells = clearBoardVisuals blankCells
  ∧ applyEvents (run Reset lostGameState).2 lostGameCells
    = Some (clearBoardVisuals blankCells).
Proof.
  apply (restart_restores_page blankCells lostGameState lostGameCells).
  apply displayed_lostGame.
Defined.
